(** * Economic dispatch: a shallow embedding of [production_plan.py]

    The dispatch core of the repository is embedded function by function:
    [compute_cost], [get_windpowerplant_power], [obtain_power],
    [process_plants], the merit-order fill of [productionplan],
    [optional_precision_iteration] and [ensure_total_equals_load].

    Modelling conventions.
    - A Python [float] is an exact rational of [Q]; [float('inf')] is a
      separate constructor of [price].  Every concrete input used below is
      exactly representable in binary floating point.
    - A raised exception is the [Raise] case of [result]; an exception that
      [productionplan] does not catch reaches the caller as [Raise].
    - The request is the decoded payload: a record per dict, with an absent
      optional key as [None]. *)

From Stdlib Require Import QArith Qabs Qround Lqa ZArith Lia.
From Stdlib Require Import List String Bool Permutation Sorted.
Import ListNotations.
Open Scope Q_scope.

(** ** Python primitives *)

Module Py.

Inductive exn : Type :=
| ValueError (msg : string)
| ZeroDivisionError
| TypeError
| UnboundLocalError (var : string).

Inductive result (A : Type) : Type :=
| Ok (a : A)
| Raise (e : exn).
Arguments Ok {A} a.
Arguments Raise {A} e.

Definition bind {A B : Type} (m : result A) (k : A -> result B) : result B :=
  match m with
  | Ok a => k a
  | Raise e => Raise e
  end.

(** [a < b] and [a <= b] on floats. *)
Definition ltb (a b : Q) : bool := negb (Qle_bool b a).
Definition leb (a b : Q) : bool := Qle_bool a b.

(** [min(a, b)] keeps its first argument unless the second is smaller;
    [max(a, b)] keeps its first argument unless the second is larger. *)
Definition min (a b : Q) : Q := if ltb b a then b else a.
Definition max (a b : Q) : Q := if ltb a b then b else a.

(** [math.isclose(a, b, rel_tol=0, abs_tol=tol)]. *)
Definition isclose (a b tol : Q) : bool := leb (Qabs (a - b)) tol.

(** Nearest integer, ties to the even one. *)
Definition round_half_even (y : Q) : Z :=
  let f := Qfloor y in
  match Qcompare (y - inject_Z f) (1 # 2) with
  | Lt => f
  | Gt => (f + 1)%Z
  | Eq => if Z.even f then f else (f + 1)%Z
  end.

(** [round(x, 1)]. *)
Definition round1 (x : Q) : Q := inject_Z (round_half_even (x * 10)) / 10.

(** [sum(...)], accumulating from the left as the interpreter does. *)
Definition sum (l : list Q) : Q := fold_left Qplus l 0.

Section Sorted.
Context {A K : Type} (key : A -> K) (klt : K -> K -> bool).

(** [sorted(l, key=key)] is stable: [x] goes in front of the first
    element whose key is not smaller than its own. *)
Fixpoint insert (x : A) (l : list A) : list A :=
  match l with
  | [] => [x]
  | y :: t => if klt (key y) (key x) then y :: insert x t else x :: y :: t
  end.

Definition sorted (l : list A) : list A := fold_right insert [] l.

(** [sorted(l, key=key, reverse=True)]: descending, and still stable. *)
Fixpoint insert_rev (x : A) (l : list A) : list A :=
  match l with
  | [] => [x]
  | y :: t => if klt (key x) (key y) then y :: insert_rev x t else x :: y :: t
  end.

Definition sorted_rev (l : list A) : list A := fold_right insert_rev [] l.

(** The order in which [sorted] leaves two neighbours: the second is not
    smaller than the first. *)
Definition ascending (x y : A) : Prop := klt (key y) (key x) = false.
End Sorted.

End Py.

Import Py.

Notation "x <- m ;; k" := (bind m (fun x => k))
  (at level 61, m at next level, right associativity).

(** ** Data model *)

(** The value of a plant's ['cost'] key: a float, possibly [float('inf')]. *)
Inductive price : Type :=
| Finite (q : Q)
| Infinite.

Definition price_ltb (a b : price) : bool :=
  match a, b with
  | Finite x, Finite y => ltb x y
  | Finite _, Infinite => true
  | Infinite, _ => false
  end.

(** What [fuels.get('wind(%)')] can hold: nothing, a number, or a value on
    which [float] raises. *)
Inductive reading : Type :=
| Missing
| Number (q : Q)
| NonNumeric.

(** One element of [payload['powerplants']]. *)
Record powerplant : Type := mkPowerplant {
  p_name : string;
  p_type : string;
  p_efficiency : option Q;
  p_pmin : Q;
  p_pmax : Q
}.

(** [payload['fuels']], by key: ['gas(euro/MWh)'], ['kerosine(euro/MWh)'],
    ['co2(euro/ton)'] and ['wind(%)']. *)
Record fuel_table : Type := mkFuels {
  gas : option Q;
  kerosine : option Q;
  co2 : option Q;
  wind : reading
}.

Record payload : Type := mkPayload {
  load : Q;
  powerplants : list powerplant;
  fuels : fuel_table
}.

(** An element of [running_plants].  The ['power'] key is set to 0 by
    [productionplan] before its first read; the record carries it from the
    start. *)
Record running_plant : Type := mkRunning {
  name : string;
  type_ : string;
  efficiency : Q;
  pmin : Q;
  pmax : Q;
  cost : price;
  power : Q
}.

Definition set_power (p : running_plant) (w : Q) : running_plant :=
  mkRunning (name p) (type_ p) (efficiency p) (pmin p) (pmax p) (cost p) w.

(** An element of [response]. *)
Record entry : Type := mkEntry {
  e_name : string;
  e_power : Q
}.

(** ** Cost model *)

Definition get_or {A : Type} (o : option A) (d : A) : A :=
  match o with Some a => a | None => d end.

(** [a / b] on floats. *)
Definition truediv (a b : Q) : result Q :=
  if Qeq_bool b 0 then Raise ZeroDivisionError else Ok (a / b).

Definition compute_cost (plant : powerplant) (fuels : fuel_table) : result price :=
  let ptype := p_type plant in
  let eff := get_or (p_efficiency plant) 1.0 in
  if String.eqb ptype "windturbine" then Ok (Finite 0.0)
  else if String.eqb ptype "gasfired" then
    let gas_price := gas fuels in
    let co2_price := get_or (co2 fuels) 0 in
    match gas_price with
    | None => Raise (ValueError "Missing gas price in fuels")
    | Some gas_price =>
        q <- truediv gas_price eff ;;
        Ok (Finite (q + 0.3 * co2_price))
    end
  else if String.eqb ptype "turbojet" then
    match kerosine fuels with
    | None => Raise (ValueError "Missing kerosine price in fuels")
    | Some kerosine_price =>
        q <- truediv kerosine_price eff ;;
        Ok (Finite q)
    end
  else Ok Infinite.

(** ** Capacity adjustment *)

(** [float(windp)]. *)
Definition float_of (v : reading) : result Q :=
  match v with
  | Number q => Ok q
  | Missing => Raise TypeError
  | NonNumeric => Raise (ValueError "could not convert to float")
  end.

(** Returns [(pmax, pmin)], in that order. *)
Definition get_windpowerplant_power (plant : powerplant) (fuels : fuel_table)
  : result (Q * Q) :=
  let windp := wind fuels in
  match float_of windp with
  | Ok w =>
      let factor := max 0.0 (min 100.0 w) / 100.0 in
      let pmax := p_pmax plant * factor in
      let pmin := 0.0 in
      Ok (pmax, pmin)
  | Raise _ => Raise (ValueError "Invalid or missing wind(%) in fuels")
  end.

(** Returns [(pmin, pmax)]. *)
Definition obtain_power (plant : powerplant) (fuels : fuel_table) : result (Q * Q) :=
  if negb (String.eqb (p_type plant) "windturbine") then
    Ok (p_pmin plant, p_pmax plant)
  else
    r <- get_windpowerplant_power plant fuels ;;
    let '(pmax, pmin) := r in
    Ok (pmin, pmax).

(** ** Building the candidates *)

(** A value bound by [total_min, total_max = process_plants(...)]: a number
    (a total on the normal path, the status 400 on the path that catches the
    error of [obtain_power]) or the Flask response object of that path. *)
Inductive pyvalue : Type :=
| PyNumber (q : Q)
| PyResponse (body : string).

Definition str (e : exn) : string :=
  match e with
  | ValueError msg => msg
  | ZeroDivisionError => "division by zero"
  | TypeError => "type error"
  | UnboundLocalError var => var
  end.

(** The [for plant in plants] loop of [process_plants].  The list
    [running_plants] is appended to in place, so it is returned with the
    tuple; an exception of [compute_cost] is not caught. *)
Fixpoint process_plants_loop (plants : list powerplant) (fuels : fuel_table)
    (running_plants : list running_plant) (total_max total_min : Q)
  : result (list running_plant * (pyvalue * pyvalue)) :=
  match plants with
  | [] => Ok (running_plants, (PyNumber total_min, PyNumber total_max))
  | plant :: rest =>
      match obtain_power plant fuels with
      | Raise e => Ok (running_plants, (PyResponse (str e), PyNumber 400))
      | Ok (pmin, pmax) =>
          c <- compute_cost plant fuels ;;
          let running_plant :=
            mkRunning (p_name plant) (p_type plant)
                      (get_or (p_efficiency plant) 1.0) pmin pmax c 0 in
          process_plants_loop rest fuels (running_plants ++ [running_plant])
            (total_max + pmax) (total_min + pmin)
      end
  end.

Definition process_plants (running_plants : list running_plant)
    (plants : list powerplant) (fuels : fuel_table)
  : result (list running_plant * (pyvalue * pyvalue)) :=
  process_plants_loop plants fuels running_plants 0.0 0.0.

(** [load < v] and [load > v] for a float [load]: a response object does not
    compare with a float. *)
Definition float_lt (x : Q) (v : pyvalue) : result bool :=
  match v with
  | PyNumber y => Ok (ltb x y)
  | PyResponse _ => Raise TypeError
  end.

Definition float_gt (x : Q) (v : pyvalue) : result bool :=
  match v with
  | PyNumber y => Ok (ltb y x)
  | PyResponse _ => Raise TypeError
  end.

(** ** Merit-order fill *)

Definition total_power (running_plants : list running_plant) : Q :=
  sum (map power running_plants).

(** The loop over the plants in ascending cost order; returns the plants
    and what is left of [remaining_total_load]. *)
Fixpoint fill (remaining_total_load : Q) (running_plants : list running_plant)
  : list running_plant * Q :=
  match running_plants with
  | [] => ([], remaining_total_load)
  | plant :: rest =>
      if leb remaining_total_load 0.000000001 then (running_plants, remaining_total_load)
      else
        let available := pmax plant - power plant in
        let to_add := min available remaining_total_load in
        let '(rest', r) := fill (remaining_total_load - to_add) rest in
        (set_power plant (power plant + to_add) :: rest', r)
  end.

(** Lines 126 to 143 of [productionplan]: powers set to 0, plants sorted by
    cost, then the fill. *)
Definition merit_order_fill (load : Q) (running_plants : list running_plant)
  : list running_plant :=
  let running_plants := map (fun plant => set_power plant 0) running_plants in
  let running_plants := sorted cost price_ltb running_plants in
  let remaining_total_load := load - total_power running_plants in
  fst (fill remaining_total_load running_plants).

(** ** Rebalancing *)

(** The passes of the rebalancing loop walk a sorted copy of the list and
    update the plants it shares with [running_plants]; a plant is paired with
    its position so that the update is put back where the plant sits. *)
Definition enumerate {A : Type} (l : list A) : list (nat * A) :=
  combine (seq 0 (List.length l)) l.

Definition in_place {A : Type} (l : list (nat * A)) : list A :=
  map snd (sorted fst Nat.ltb l).

Fixpoint reduce (minimum_difference diff : Q) (l : list (nat * running_plant))
  : list (nat * running_plant) :=
  match l with
  | [] => []
  | (i, plant) :: rest =>
      if leb diff minimum_difference then l
      else
        let reducible := power plant - pmin plant in
        let reduce_by := min reducible diff in
        if ltb 0 reduce_by then
          (i, set_power plant (power plant - reduce_by))
            :: reduce minimum_difference (diff - reduce_by) rest
        else (i, plant) :: reduce minimum_difference diff rest
  end.

Fixpoint increase (minimum_difference need : Q) (l : list (nat * running_plant))
  : list (nat * running_plant) :=
  match l with
  | [] => []
  | (i, plant) :: rest =>
      if leb need minimum_difference then l
      else
        let spare := pmax plant - power plant in
        let add := min spare need in
        if ltb 0 add then
          (i, set_power plant (power plant + add))
            :: increase minimum_difference (need - add) rest
        else (i, plant) :: increase minimum_difference need rest
  end.

Definition by_cost {A : Type} (p : A * running_plant) : price := cost (snd p).

(** One execution of the body of the [while] loop, after its [break] test. *)
Definition rebalance_round (load : Q) (running_plants : list running_plant)
    (minimum_difference : Q) : list running_plant :=
  let total := total_power running_plants in
  let diff := total - load in
  if ltb 0 diff then
    in_place (reduce minimum_difference diff
                (sorted_rev by_cost price_ltb (enumerate running_plants)))
  else
    let need := - diff in
    in_place (increase minimum_difference need
                (sorted by_cost price_ltb (enumerate running_plants))).

(** The [while] loop; [fuel] is [max_iter - iter_count], so that the loop
    test [iter_count < max_iter] fails exactly when the fuel is spent. *)
Fixpoint rebalance_loop (fuel : nat) (load : Q) (running_plants : list running_plant)
    (iter_count : nat) (minimum_difference : Q) : list running_plant * nat :=
  match fuel with
  | O => (running_plants, iter_count)
  | S fuel' =>
      if negb (isclose (total_power running_plants) load 0.5) then
        let total := total_power running_plants in
        let diff := total - load in
        if ltb (Qabs diff) minimum_difference then (running_plants, iter_count)
        else
          rebalance_loop fuel' load
            (rebalance_round load running_plants minimum_difference)
            (S iter_count) minimum_difference
      else (running_plants, iter_count)
  end.

(** What [optional_precision_iteration] leaves behind: the plants it has
    updated in place, the value of [iter_count] when the loop ends, and the
    [final_total] it returns. *)
Record rebalanced : Type := mkRebalanced {
  plants_after : list running_plant;
  rounds : nat;
  final_total : Q
}.

Definition optional_precision_iteration (load : Q) (running_plants : list running_plant)
    (max_iter iter_count : nat) (minimum_difference : Q) : rebalanced :=
  let '(running_plants, iter_count) :=
    rebalance_loop (max_iter - iter_count) load running_plants iter_count
                   minimum_difference in
  mkRebalanced running_plants iter_count (total_power running_plants).

(** ** Rounding reconciliation *)

(** The inner [for r in response] loop: the first entry with the plant's
    name is tried and the loop left. *)
Fixpoint nudge (plant : running_plant) (difference : Q) (response : list entry)
  : Q * list entry :=
  match response with
  | [] => (difference, [])
  | r :: rest =>
      if String.eqb (e_name r) (name plant) then
        let new_p := e_power r + difference in
        if leb (pmin plant - 0.000000001) new_p && leb new_p (pmax plant + 0.000000001)
           && leb 0.0 new_p
        then (0.0, mkEntry (e_name r) (round1 new_p) :: rest)
        else (difference, response)
      else
        let '(d, rest') := nudge plant difference rest in
        (d, r :: rest')
  end.

(** The outer [for plant in sorted(running_plants, ...)] loop. *)
Fixpoint absorb (difference : Q) (plants : list running_plant) (response : list entry)
  : list entry :=
  match plants with
  | [] => response
  | plant :: rest =>
      let '(difference, response) := nudge plant difference response in
      if Qeq_bool difference 0.0 then response
      else absorb difference rest response
  end.

(** The list [response] is updated in place; the updated list is returned. *)
Definition ensure_total_equals_load (load : Q) (running_plants : list running_plant)
    (response : list entry) (rounded_total : Q) : list entry :=
  let difference := round1 (load - rounded_total) in
  if leb 0.1 (Qabs difference) then
    absorb difference (sorted cost price_ltb running_plants) response
  else response.

(** ** The request handler *)

(** Status 200 with the plan, or status 400 with the message built from the
    load and the range. *)
Inductive http_response : Type :=
| Json200 (plan : list entry)
| Json400_load_range (load : Q) (total_min total_max : pyvalue).

Definition to_entry (plant : running_plant) : entry :=
  mkEntry (name plant) (power plant).

Definition max_iter : nat := 1000.
Definition minimum_difference : Q := 0.000001.

Definition productionplan (req : payload) : result http_response :=
  let load := load req in
  let plants := powerplants req in
  let fuels := fuels req in
  r <- process_plants [] plants fuels ;;
  let '(running_plants, (total_min, total_max)) := r in
  too_small <- float_lt load total_min ;;
  too_large <- (if too_small then Ok true else float_gt load total_max) ;;
  if too_large then
    Ok (Json400_load_range load total_min total_max)
  else
    let running_plants := merit_order_fill load running_plants in
    let iter_count := O in
    if negb (isclose (total_power running_plants) load 0.5)
       && Nat.ltb iter_count max_iter
    then Raise (UnboundLocalError "final_total")
    else
      let reb := optional_precision_iteration load running_plants max_iter
                   iter_count minimum_difference in
      let running_plants := plants_after reb in
      let response := map to_entry running_plants in
      let rounded_total := sum (map e_power response) in
      let response :=
        ensure_total_equals_load load running_plants response rounded_total in
      Ok (Json200 response).

(** ** Vocabulary of the properties *)

(** The candidate that [process_plants] builds for a plant. *)
Definition built (fuels : fuel_table) (plant : powerplant) (c : running_plant) : Prop :=
  name c = p_name plant
  /\ obtain_power plant fuels = Ok (pmin c, pmax c)
  /\ compute_cost plant fuels = Ok (cost c)
  /\ power c = 0.

(** Clamping as the specification words it: a value below the interval
    becomes its lower end, a value above it its upper end. *)
Definition clamp (x lo hi : Q) : Q :=
  if Qlt_le_dec x lo then lo else if Qlt_le_dec hi x then hi else x.

(** A power with at most one decimal: a whole number of tenths. *)
Definition one_decimal (q : Q) : Prop := exists k : Z, q == inject_Z k / 10.

(** The operating envelope read on a whole request: every entry of the plan
    lies between the bounds of the candidate that carries its name. *)
Definition envelope_respected (req : payload) : Prop :=
  forall rps t plan,
    process_plants [] (powerplants req) (fuels req) = Ok (rps, t) ->
    productionplan req = Ok (Json200 plan) ->
    forall c e, In c rps -> In e plan -> name c = e_name e ->
      pmin c - 0.000001 <= e_power e /\ e_power e <= pmax c + 0.000001.

(** The rebalancing read, on a request, as a correction down to the
    convergence threshold: when the request is answered with a plan and the
    fill has left an imbalance of at least that threshold, the rebalancing
    works on it until it is below the threshold or the cap on rounds is
    reached. *)
Definition rebalancer_converges (req : payload) : Prop :=
  forall plan rps lo hi,
    productionplan req = Ok (Json200 plan) ->
    process_plants [] (powerplants req) (fuels req)
    = Ok (rps, (PyNumber lo, PyNumber hi)) ->
    0.000001 <= Qabs (total_power (merit_order_fill (load req) rps) - load req) ->
    Qabs (total_power
            (plants_after
               (optional_precision_iteration (load req)
                  (merit_order_fill (load req) rps) max_iter 0 minimum_difference))
          - load req) < 0.000001
    \/ rounds (optional_precision_iteration (load req)
                 (merit_order_fill (load req) rps) max_iter 0 minimum_difference)
       = max_iter.

(** ** Requests used as examples *)

(** Two gas-fired units: A with bounds 5 and 10 at cost 10, B with bounds
    30 and 100 at cost 20 (gas at 10, efficiencies 1 and 0.5). *)
Definition unit_A : powerplant := mkPowerplant "A" "gasfired" (Some 1) 5 10.
Definition unit_B : powerplant := mkPowerplant "B" "gasfired" (Some 0.5) 30 100.
Definition gas_at_10 : fuel_table := mkFuels (Some 10) None None Missing.
Definition edge_request : payload := mkPayload 35 [unit_A; unit_B] gas_at_10.
Definition full_request : payload := mkPayload 110 [unit_A; unit_B] gas_at_10.

(** A wind turbine of 150 at 60 percent of wind and a gas unit up to 200. *)
Definition wind_150 : powerplant := mkPowerplant "wind" "windturbine" None 0 150.
Definition gas_200 : powerplant := mkPowerplant "gas" "gasfired" (Some 0.5) 0 200.
Definition windy : fuel_table := mkFuels (Some 10) None None (Number 60).
Definition mixed_request : payload := mkPayload 100 [gas_200; wind_150] windy.

(** The same units with no wind reading in the fuels. *)
Definition becalmed_request : payload :=
  mkPayload 100 [gas_200; wind_150] gas_at_10.

(** One gas unit from 0 to 10 and a load of a quarter of a megawatt. *)
Definition gas_10 : powerplant := mkPowerplant "gas" "gasfired" (Some 1) 0 10.
Definition quarter_request : payload := mkPayload 0.25 [gas_10] gas_at_10.

(** One gas unit from -5 to 10 and a load of -0.25. *)
Definition gas_below_zero : powerplant :=
  mkPowerplant "gas" "gasfired" (Some 1) (-5) 10.
Definition negative_request : payload :=
  mkPayload (-0.25) [gas_below_zero] gas_at_10.

(** A single idle candidate from 0 to 10. *)
Definition idle_candidate : running_plant :=
  mkRunning "gas" "gasfired" 1 0 10 (Finite 10) 0.

(** ** Vocabulary of the further properties *)

(** A plant that [process_plants] can turn into a candidate: the price its
    type needs is in the fuels, its efficiency is not 0, and a wind turbine
    comes with a numeric wind reading. *)
Definition well_formed (fuels : fuel_table) (plant : powerplant) : Prop :=
  ~ get_or (p_efficiency plant) 1.0 == 0
  /\ (p_type plant = "gasfired"%string -> gas fuels <> None)
  /\ (p_type plant = "turbojet"%string -> kerosine fuels <> None)
  /\ (p_type plant = "windturbine"%string -> exists a, wind fuels = Number a).

(** The prices in the fuels that are present are not negative. *)
Definition prices_nonneg (fuels : fuel_table) : Prop :=
  0 <= get_or (gas fuels) 0 /\ 0 <= get_or (kerosine fuels) 0
  /\ 0 <= get_or (co2 fuels) 0.

(** Two costs that compare equal. *)
Definition price_eqb (a b : price) : bool :=
  match a, b with
  | Finite x, Finite y => Qeq_bool x y
  | Infinite, Infinite => true
  | _, _ => false
  end.

Definition same_cost (c : price) (plant : running_plant) : bool :=
  price_eqb (cost plant) c.

(** A candidate keeps its power between its two bounds. *)
Definition within_bounds (plant : running_plant) : Prop :=
  pmin plant <= power plant /\ power plant <= pmax plant.

(** What the plants can release above their minima, and what they can take
    up to their maxima. *)
Definition releasable (running_plants : list running_plant) : Q :=
  sum (map (fun plant => max 0 (power plant - pmin plant)) running_plants).

Definition spare_capacity (running_plants : list running_plant) : Q :=
  sum (map (fun plant => max 0 (pmax plant - power plant)) running_plants).

(** A candidate with its power put aside: its name, type, efficiency,
    bounds and cost. *)
Definition unpowered (plant : running_plant) : running_plant := set_power plant 0.

(** * Properties *)

(** ** Comparisons, sums and sorting *)

Lemma ltb_true (a b : Q) : ltb a b = true <-> a < b.
Proof.
  unfold ltb. rewrite negb_true_iff. split; intro H.
  - destruct (Qlt_le_dec a b) as [Hlt | Hle]; [exact Hlt |].
    apply Qle_bool_iff in Hle. congruence.
  - apply not_true_is_false. intro Hc. apply Qle_bool_iff in Hc. lra.
Qed.

Lemma ltb_false (a b : Q) : ltb a b = false <-> b <= a.
Proof.
  unfold ltb. rewrite negb_false_iff. apply Qle_bool_iff.
Qed.

Lemma leb_true (a b : Q) : leb a b = true <-> a <= b.
Proof. apply Qle_bool_iff. Qed.

Lemma leb_false (a b : Q) : leb a b = false <-> b < a.
Proof.
  unfold leb. split; intro H.
  - destruct (Qlt_le_dec b a) as [Hlt | Hle]; [exact Hlt |].
    apply Qle_bool_iff in Hle. congruence.
  - apply not_true_is_false. intro Hc. apply Qle_bool_iff in Hc. lra.
Qed.

Ltac reflect_cmp :=
  repeat match goal with
         | H : ltb _ _ = true |- _ => apply ltb_true in H
         | H : ltb _ _ = false |- _ => apply ltb_false in H
         | H : leb _ _ = true |- _ => apply leb_true in H
         | H : leb _ _ = false |- _ => apply leb_false in H
         end.

Lemma isclose_true (a b tol : Q) : isclose a b tol = true <-> Qabs (a - b) <= tol.
Proof. apply leb_true. Qed.

Lemma min_cases (a b : Q) :
  (b < a /\ min a b = b) \/ (a <= b /\ min a b = a).
Proof.
  unfold min. destruct (ltb b a) eqn:H; reflect_cmp; auto.
Qed.

Lemma max_cases (a b : Q) :
  (a < b /\ max a b = b) \/ (b <= a /\ max a b = a).
Proof.
  unfold max. destruct (ltb a b) eqn:H; reflect_cmp; auto.
Qed.

Lemma fold_left_Qplus (l : list Q) (a : Q) :
  fold_left Qplus l a == a + fold_left Qplus l 0.
Proof.
  revert a. induction l as [| x l IH]; intro a; simpl.
  - lra.
  - rewrite (IH (a + x)), (IH (0 + x)). lra.
Qed.

Lemma sum_cons (x : Q) (l : list Q) : sum (x :: l) == x + sum l.
Proof.
  unfold sum. simpl. rewrite fold_left_Qplus. lra.
Qed.

Lemma sum_perm (l l' : list Q) : Permutation l l' -> sum l == sum l'.
Proof.
  induction 1 as [| x l l' _ IH | x y l | l l' l'' _ IH1 _ IH2].
  - reflexivity.
  - rewrite !sum_cons, IH. reflexivity.
  - rewrite !sum_cons. lra.
  - rewrite IH1. exact IH2.
Qed.

Lemma total_power_cons (p : running_plant) (l : list running_plant) :
  total_power (p :: l) == power p + total_power l.
Proof. unfold total_power. simpl. apply sum_cons. Qed.

Section SortedFacts.
Context {A K : Type} (key : A -> K) (klt : K -> K -> bool).

Lemma insert_perm (x : A) (l : list A) :
  Permutation (insert key klt x l) (x :: l).
Proof.
  induction l as [| y t IH]; simpl.
  - apply Permutation_refl.
  - destruct (klt (key y) (key x)).
    + apply perm_trans with (y :: x :: t).
      * apply perm_skip. exact IH.
      * apply perm_swap.
    + apply Permutation_refl.
Qed.

Lemma sorted_perm (l : list A) : Permutation (sorted key klt l) l.
Proof.
  induction l as [| x l IH]; simpl.
  - apply perm_nil.
  - apply perm_trans with (x :: sorted key klt l).
    + apply insert_perm.
    + apply perm_skip. exact IH.
Qed.

Hypothesis klt_asym : forall a b, klt a b = true -> klt b a = false.

Lemma insert_hd (x a : A) (l : list A) :
  ascending key klt a x -> HdRel (ascending key klt) a l ->
  HdRel (ascending key klt) a (insert key klt x l).
Proof.
  intros Hax Hl. destruct l as [| y t]; simpl.
  - constructor. exact Hax.
  - destruct (klt (key y) (key x)); constructor.
    + inversion Hl. assumption.
    + exact Hax.
Qed.

Lemma insert_sorted (x : A) (l : list A) :
  Sorted (ascending key klt) l -> Sorted (ascending key klt) (insert key klt x l).
Proof.
  induction 1 as [| y t Ht IH Hhd]; simpl.
  - repeat constructor.
  - destruct (klt (key y) (key x)) eqn:E.
    + constructor; [exact IH |].
      apply insert_hd; [| exact Hhd].
      unfold ascending. apply klt_asym. exact E.
    + constructor.
      * constructor; assumption.
      * constructor. exact E.
Qed.

Lemma sorted_sorted (l : list A) : Sorted (ascending key klt) (sorted key klt l).
Proof.
  induction l as [| x l IH]; simpl.
  - constructor.
  - apply insert_sorted. exact IH.
Qed.
End SortedFacts.

Lemma price_ltb_asym (a b : price) : price_ltb a b = true -> price_ltb b a = false.
Proof.
  destruct a as [x |], b as [y |]; simpl; intro H; try reflexivity; try discriminate.
  reflect_cmp. apply ltb_false. lra.
Qed.

(** ** Rounding *)

Lemma round_half_even_near (y : Q) :
  inject_Z (round_half_even y) - (1 # 2) <= y
  /\ y <= inject_Z (round_half_even y) + (1 # 2).
Proof.
  unfold round_half_even.
  pose proof (Qfloor_le y) as Hlo.
  pose proof (Qlt_floor y) as Hhi.
  rewrite inject_Z_plus in Hhi. change (inject_Z 1) with 1 in Hhi.
  destruct (Qcompare_spec (y - inject_Z (Qfloor y)) (1 # 2)) as [He | Hl | Hg].
  - destruct (Z.even (Qfloor y));
      [| rewrite inject_Z_plus; change (inject_Z 1) with 1]; split; lra.
  - split; lra.
  - rewrite inject_Z_plus. change (inject_Z 1) with 1. split; lra.
Qed.

Lemma round1_near (x : Q) : Qabs (round1 x - x) <= 0.05.
Proof.
  unfold round1.
  destruct (round_half_even_near (x * 10)) as [Hlo Hhi].
  apply Qabs_Qle_condition.
  set (k := inject_Z (round_half_even (x * 10))) in *.
  unfold Qdiv. change (/ 10) with (1 # 10).
  split; lra.
Qed.

(** ** The fill *)

Lemma fill_total (l : list running_plant) (rem : Q) :
  total_power (fst (fill rem l)) + snd (fill rem l) == total_power l + rem.
Proof.
  revert rem. induction l as [| p l IH]; intro rem; simpl.
  - lra.
  - destruct (leb rem 0.000000001); simpl; [lra |].
    specialize (IH (rem - min (pmax p - power p) rem)).
    destruct (fill (rem - min (pmax p - power p) rem) l) as [rest' r].
    simpl in *. rewrite !total_power_cons. simpl. lra.
Qed.

Lemma fill_left_nonneg (l : list running_plant) (rem : Q) :
  0 <= rem -> 0 <= snd (fill rem l).
Proof.
  revert rem. induction l as [| p l IH]; intros rem Hrem; simpl.
  - exact Hrem.
  - destruct (leb rem 0.000000001); simpl; [exact Hrem |].
    specialize (IH (rem - min (pmax p - power p) rem)).
    destruct (fill (rem - min (pmax p - power p) rem) l) as [rest' r].
    simpl in *. apply IH.
    destruct (min_cases (pmax p - power p) rem) as [[_ E] | [Hle E]];
      rewrite E; lra.
Qed.

Lemma fill_left_small (l : list running_plant) (rem : Q) :
  rem <= 0.000000001 \/ rem <= sum (map pmax l) - total_power l ->
  snd (fill rem l) <= 0.000000001.
Proof.
  revert rem. induction l as [| p l IH]; intros rem Hrem; simpl.
  - unfold total_power, sum in Hrem. simpl in Hrem. lra.
  - destruct (leb rem 0.000000001) eqn:Hsmall; simpl; reflect_cmp; [exact Hsmall |].
    specialize (IH (rem - min (pmax p - power p) rem)).
    destruct (fill (rem - min (pmax p - power p) rem) l) as [rest' r].
    simpl in *. apply IH.
    rewrite sum_cons, total_power_cons in Hrem.
    destruct (min_cases (pmax p - power p) rem) as [[_ E] | [Hle E]];
      rewrite E; [left | right]; lra.
Qed.

Lemma fill_break (l : list running_plant) (rem : Q) :
  rem <= 0.000000001 -> fill rem l = (l, rem).
Proof.
  intro H. apply leb_true in H. destruct l; simpl; [| rewrite H]; reflexivity.
Qed.

(** The fill changes nothing but the power of a plant. *)
Lemma fill_keeps (l : list running_plant) (rem : Q) :
  map (fun p => set_power p 0) (fst (fill rem l)) = map (fun p => set_power p 0) l.
Proof.
  revert rem. induction l as [| p l IH]; intro rem; simpl.
  - reflexivity.
  - destruct (leb rem 0.000000001); simpl; [reflexivity |].
    specialize (IH (rem - min (pmax p - power p) rem)).
    destruct (fill (rem - min (pmax p - power p) rem) l) as [rest' r].
    simpl in *. rewrite IH. reflexivity.
Qed.

Lemma fill_within (l : list running_plant) (rem : Q) :
  Forall (fun p => power p == 0 /\ 0 <= pmax p) l ->
  Forall (fun p => 0 <= power p /\ power p <= pmax p) (fst (fill rem l)).
Proof.
  revert rem. induction l as [| p l IH]; intros rem Hl; simpl.
  - constructor.
  - destruct (leb rem 0.000000001) eqn:Hsmall; simpl.
    + apply Forall_impl with (2 := Hl). intros a [Ha Hb]. lra.
    + reflect_cmp. inversion Hl as [| ? ? [Hp Hmax] Hrest]; subst.
      specialize (IH (rem - min (pmax p - power p) rem) Hrest).
      destruct (fill (rem - min (pmax p - power p) rem) l) as [rest' r].
      simpl in *. constructor; [| exact IH]. simpl.
      destruct (min_cases (pmax p - power p) rem) as [[Hlt E] | [Hle E]];
        rewrite E; split; lra.
Qed.

(** ** The candidates and their totals *)

Lemma process_plants_loop_ok (fuels : fuel_table) (plants : list powerplant) :
  forall acc tmax tmin rps lo hi,
    process_plants_loop plants fuels acc tmax tmin = Ok (rps, (PyNumber lo, PyNumber hi)) ->
    exists new,
      rps = acc ++ new
      /\ Forall2 (built fuels) plants new
      /\ lo == tmin + sum (map pmin new)
      /\ hi == tmax + sum (map pmax new).
Proof.
  induction plants as [| plant rest IH]; intros acc tmax tmin rps lo hi H; simpl in H.
  - injection H as <- <- <-. exists []. rewrite app_nil_r.
    unfold sum. simpl. repeat split; try constructor; lra.
  - destruct (obtain_power plant fuels) as [[lo1 hi1] | e] eqn:Hb; [| discriminate].
    destruct (compute_cost plant fuels) as [c | e] eqn:Hc; simpl in H; [| discriminate].
    apply IH in H. destruct H as (new & -> & Hnew & Hlo & Hhi).
    eexists (_ :: new). rewrite <- app_assoc. simpl.
    repeat split.
    + constructor; [| exact Hnew]. repeat split; assumption.
    + rewrite sum_cons. simpl. lra.
    + rewrite sum_cons. simpl. lra.
Qed.

Lemma process_plants_ok (fuels : fuel_table) (plants : list powerplant) rps lo hi :
  process_plants [] plants fuels = Ok (rps, (PyNumber lo, PyNumber hi)) ->
  Forall2 (built fuels) plants rps
  /\ lo == sum (map pmin rps)
  /\ hi == sum (map pmax rps).
Proof.
  intro H. apply process_plants_loop_ok in H.
  destruct H as (new & -> & Hnew & Hlo & Hhi). simpl.
  repeat split; [exact Hnew | lra | lra].
Qed.

Lemma sum_nonneg (l : list Q) : Forall (fun x => 0 <= x) l -> 0 <= sum l.
Proof.
  induction 1 as [| x l Hx _ IH].
  - unfold sum. simpl. lra.
  - rewrite sum_cons. lra.
Qed.

Lemma obtain_power_floor (fuels : fuel_table) (plant : powerplant) (lo hi : Q) :
  0 <= p_pmin plant -> obtain_power plant fuels = Ok (lo, hi) -> 0 <= lo.
Proof.
  unfold obtain_power, get_windpowerplant_power. intros Hp H.
  destruct (negb (p_type plant =? "windturbine")%string).
  - injection H as <- <-. exact Hp.
  - destruct (float_of (wind fuels)); simpl in H; [| discriminate].
    injection H as <- <-. lra.
Qed.

Lemma obtain_power_ceiling (fuels : fuel_table) (plant : powerplant) (lo hi : Q) :
  0 <= p_pmax plant -> obtain_power plant fuels = Ok (lo, hi) -> 0 <= hi.
Proof.
  unfold obtain_power, get_windpowerplant_power. intros Hp H.
  destruct (negb (p_type plant =? "windturbine")%string).
  - injection H as <- <-. exact Hp.
  - destruct (float_of (wind fuels)) as [w | e]; simpl in H; [| discriminate].
    injection H as <- <-.
    apply Qmult_le_0_compat; [exact Hp |].
    unfold Qdiv. change (/ 100.0) with (10 # 1000).
    destruct (max_cases 0.0 (min 100.0 w)) as [[Hlt E] | [Hle E]]; rewrite E; lra.
Qed.

Lemma built_floors (fuels : fuel_table) (plants : list powerplant) rps :
  Forall2 (built fuels) plants rps ->
  Forall (fun p => 0 <= p_pmin p) plants ->
  Forall (fun x => 0 <= x) (map pmin rps).
Proof.
  induction 1 as [| plant c plants rps (_ & Hb & _) _ IH]; intro Hp; simpl.
  - constructor.
  - inversion Hp; subst. constructor; [| apply IH; assumption].
    eapply obtain_power_floor; eassumption.
Qed.

Lemma built_ceilings (fuels : fuel_table) (plants : list powerplant) rps :
  Forall2 (built fuels) plants rps ->
  Forall (fun p => 0 <= p_pmax p) plants ->
  Forall (fun c => 0 <= pmax c) rps.
Proof.
  induction 1 as [| plant c plants rps (_ & Hb & _) _ IH]; intro Hp; simpl.
  - constructor.
  - inversion Hp; subst. constructor; [| apply IH; assumption].
    eapply obtain_power_ceiling; eassumption.
Qed.

(** ** After the fill *)

Lemma total_power_zero (l : list running_plant) :
  Forall (fun p => power p == 0) l -> total_power l == 0.
Proof.
  induction 1 as [| p l Hp _ IH].
  - reflexivity.
  - rewrite total_power_cons. lra.
Qed.

Lemma zeroed_idle (rps : list running_plant) :
  Forall (fun p => power p == 0)
         (sorted cost price_ltb (map (fun plant => set_power plant 0) rps)).
Proof.
  eapply Permutation_Forall.
  - apply Permutation_sym, sorted_perm.
  - apply Forall_forall. intros p Hp. apply in_map_iff in Hp.
    destruct Hp as (c & <- & _). reflexivity.
Qed.

Lemma zeroed_ceiling (rps : list running_plant) :
  sum (map pmax (sorted cost price_ltb (map (fun plant => set_power plant 0) rps)))
  == sum (map pmax rps).
Proof.
  rewrite (sum_perm _ (map pmax (map (fun plant => set_power plant 0) rps))).
  - rewrite map_map. reflexivity.
  - apply Permutation_map, sorted_perm.
Qed.

Lemma merit_fill_balance (load : Q) (rps : list running_plant) :
  0 <= load -> load <= sum (map pmax rps) ->
  0 <= load - total_power (merit_order_fill load rps)
  /\ load - total_power (merit_order_fill load rps) <= 0.000000001.
Proof.
  intros Hpos Hmax. unfold merit_order_fill.
  set (srt := sorted cost price_ltb (map (fun plant => set_power plant 0) rps)).
  pose proof (total_power_zero srt (zeroed_idle rps)) as Hzero.
  pose proof (zeroed_ceiling rps) as Hceil. fold srt in Hceil.
  pose proof (fill_total srt (load - total_power srt)) as Htot.
  pose proof (fill_left_nonneg srt (load - total_power srt)) as Hnn.
  pose proof (fill_left_small srt (load - total_power srt)) as Hsm.
  split.
  - assert (0 <= snd (fill (load - total_power srt) srt)) by (apply Hnn; lra). lra.
  - assert (snd (fill (load - total_power srt) srt) <= 0.000000001)
      by (apply Hsm; right; lra).
    lra.
Qed.

Lemma merit_fill_idle (load : Q) (rps : list running_plant) :
  load <= 0.000000001 ->
  merit_order_fill load rps
  = sorted cost price_ltb (map (fun plant => set_power plant 0) rps).
Proof.
  intro H. unfold merit_order_fill.
  set (srt := sorted cost price_ltb (map (fun plant => set_power plant 0) rps)).
  pose proof (total_power_zero srt (zeroed_idle rps)) as Hzero.
  rewrite fill_break; [reflexivity | lra].
Qed.

(** ** The rebalancing loop when the totals are close *)

Lemma rebalance_loop_close (fuel : nat) (load : Q) (rps : list running_plant)
    (n : nat) (md : Q) :
  isclose (total_power rps) load 0.5 = true ->
  rebalance_loop fuel load rps n md = (rps, n).
Proof.
  intro H. destruct fuel; simpl; [| rewrite H]; reflexivity.
Qed.

Lemma optional_precision_iteration_close (load : Q) (rps : list running_plant)
    (mi n : nat) (md : Q) :
  isclose (total_power rps) load 0.5 = true ->
  optional_precision_iteration load rps mi n md
  = mkRebalanced rps n (total_power rps).
Proof.
  intro H. unfold optional_precision_iteration.
  rewrite rebalance_loop_close by exact H. reflexivity.
Qed.

(** ** The reconciliation when nothing is left to absorb *)

Lemma ensure_balanced (load : Q) (rps : list running_plant) (resp : list entry)
    (total : Q) :
  0 <= load - total -> load - total <= 0.000000001 ->
  ensure_total_equals_load load rps resp total = resp.
Proof.
  intros Hlo Hhi. unfold ensure_total_equals_load.
  destruct (leb 0.1 (Qabs (round1 (load - total)))) eqn:E; [| reflexivity].
  exfalso. reflect_cmp.
  pose proof (round1_near (load - total)) as Hn.
  apply Qabs_Qle_condition in Hn.
  assert (Qabs (round1 (load - total)) <= 0.06) as Hs
      by (apply Qabs_Qle_condition; split; lra).
  lra.
Qed.

Lemma nudge_negative (plant : running_plant) (d : Q) (resp : list entry) :
  d < 0 -> Forall (fun r => e_power r == 0) resp -> nudge plant d resp = (d, resp).
Proof.
  intros Hd. induction 1 as [| r rest Hr _ IH]; simpl.
  - reflexivity.
  - destruct (e_name r =? name plant)%string.
    + assert (leb 0.0 (e_power r + d) = false) as -> by (apply leb_false; lra).
      rewrite andb_false_r. reflexivity.
    + rewrite IH. reflexivity.
Qed.

Lemma absorb_negative (d : Q) (plants : list running_plant) (resp : list entry) :
  d < 0 -> Forall (fun r => e_power r == 0) resp -> absorb d plants resp = resp.
Proof.
  intros Hd Hz. induction plants as [| plant rest IH]; simpl.
  - reflexivity.
  - rewrite nudge_negative by assumption.
    destruct (Qeq_bool d 0.0); [reflexivity | exact IH].
Qed.

Lemma ensure_idle (load : Q) (rps : list running_plant) (resp : list entry)
    (total : Q) :
  load < 0 -> total == 0 -> Forall (fun r => e_power r == 0) resp ->
  ensure_total_equals_load load rps resp total = resp.
Proof.
  intros Hneg Hzero Hz. unfold ensure_total_equals_load.
  destruct (leb 0.1 (Qabs (round1 (load - total)))) eqn:E; [| reflexivity].
  reflect_cmp. apply absorb_negative; [| exact Hz].
  pose proof (round1_near (load - total)) as Hn.
  apply Qabs_Qle_condition in Hn.
  destruct (Qlt_le_dec (round1 (load - total)) 0) as [Hlt | Hge]; [exact Hlt |].
  rewrite (Qabs_pos _ Hge) in E. lra.
Qed.

Lemma response_total (l : list running_plant) :
  sum (map e_power (map to_entry l)) = total_power l.
Proof. unfold total_power. rewrite map_map. reflexivity. Qed.

Lemma ensure_after_fill (load hi : Q) (rps : list running_plant) :
  load <= hi -> hi == sum (map pmax rps) ->
  ensure_total_equals_load load (merit_order_fill load rps)
    (map to_entry (merit_order_fill load rps))
    (sum (map e_power (map to_entry (merit_order_fill load rps))))
  = map to_entry (merit_order_fill load rps).
Proof.
  intros Hle Hhi. rewrite response_total.
  destruct (Qlt_le_dec load 0) as [Hneg | Hpos].
  - rewrite merit_fill_idle by lra.
    pose proof (zeroed_idle rps) as Hz.
    apply ensure_idle; [exact Hneg | apply total_power_zero; exact Hz |].
    apply Forall_forall. intros r Hr. apply in_map_iff in Hr.
    destruct Hr as (c & <- & Hc). simpl.
    rewrite Forall_forall in Hz. apply Hz. exact Hc.
  - destruct (merit_fill_balance load rps Hpos) as [H1 H2]; [lra |].
    apply ensure_balanced; assumption.
Qed.

(** ** The handler, path by path *)

Arguments optional_precision_iteration : simpl never.
Arguments merit_order_fill : simpl never.
Arguments ensure_total_equals_load : simpl never.

Lemma process_plants_loop_shape (fuels : fuel_table) (plants : list powerplant) :
  forall acc tmax tmin rps a b,
    process_plants_loop plants fuels acc tmax tmin = Ok (rps, (a, b)) ->
    (exists lo hi, a = PyNumber lo /\ b = PyNumber hi)
    \/ (exists body, a = PyResponse body).
Proof.
  induction plants as [| plant rest IH]; intros acc tmax tmin rps a b H; simpl in H.
  - injection H as <- <- <-. left. eauto.
  - destruct (obtain_power plant fuels) as [[lo1 hi1] | e].
    + destruct (compute_cost plant fuels) as [c | e]; simpl in H; [| discriminate].
      eapply IH. exact H.
    + injection H as <- <- <-. right. eauto.
Qed.

Lemma productionplan_built (req : payload) rps lo hi :
  process_plants [] (powerplants req) (fuels req) = Ok (rps, (PyNumber lo, PyNumber hi)) ->
  productionplan req =
    if ltb (load req) lo || ltb hi (load req)
    then Ok (Json400_load_range (load req) (PyNumber lo) (PyNumber hi))
    else if negb (isclose (total_power (merit_order_fill (load req) rps)) (load req) 0.5)
         then Raise (UnboundLocalError "final_total")
         else Ok (Json200 (map to_entry (merit_order_fill (load req) rps))).
Proof.
  intro Hpp. pose proof (process_plants_ok _ _ _ _ _ Hpp) as (_ & _ & Hhi).
  unfold productionplan. rewrite Hpp. cbn [bind float_lt float_gt].
  destruct (ltb (load req) lo) eqn:Hlo; cbn [bind orb]; [reflexivity |].
  destruct (ltb hi (load req)) eqn:Hhigh; [reflexivity |].
  change (Nat.ltb 0 max_iter) with true. rewrite andb_true_r.
  destruct (isclose (total_power (merit_order_fill (load req) rps)) (load req) 0.5)
    eqn:Hclose; cbn [negb]; [| reflexivity].
  rewrite optional_precision_iteration_close by exact Hclose.
  cbn [plants_after]. reflect_cmp.
  rewrite (ensure_after_fill (load req) hi) by assumption.
  reflexivity.
Qed.

Lemma productionplan_unbuilt (req : payload) rps body v :
  process_plants [] (powerplants req) (fuels req) = Ok (rps, (PyResponse body, v)) ->
  productionplan req = Raise TypeError.
Proof.
  intro Hpp. unfold productionplan. rewrite Hpp. reflexivity.
Qed.

Lemma productionplan_plan (req : payload) (plan : list entry) :
  productionplan req = Ok (Json200 plan) ->
  exists rps lo hi,
    process_plants [] (powerplants req) (fuels req) = Ok (rps, (PyNumber lo, PyNumber hi))
    /\ lo <= load req /\ load req <= hi
    /\ Qabs (total_power (merit_order_fill (load req) rps) - load req) <= 0.5
    /\ plan = map to_entry (merit_order_fill (load req) rps).
Proof.
  intro H.
  destruct (process_plants [] (powerplants req) (fuels req))
    as [[rps [a b]] |] eqn:Hpp.
  - destruct (process_plants_loop_shape _ _ _ _ _ _ _ _ Hpp)
      as [(lo & hi & -> & ->) | (body & ->)].
    + rewrite (productionplan_built req rps lo hi Hpp) in H.
      destruct (ltb (load req) lo) eqn:Hlo; [discriminate |].
      destruct (ltb hi (load req)) eqn:Hhi; [discriminate |].
      cbn [orb] in H.
      destruct (isclose (total_power (merit_order_fill (load req) rps)) (load req) 0.5)
        eqn:Hclose; cbn [negb] in H; [| discriminate].
      injection H as <-. reflect_cmp. apply isclose_true in Hclose.
      exists rps, lo, hi. repeat split; assumption.
    + rewrite (productionplan_unbuilt req rps body b Hpp) in H. discriminate.
  - unfold productionplan in H. rewrite Hpp in H. discriminate.
Qed.

(** * The claims *)

(** ** C1: the plan sums to the load within half a megawatt *)

(** C1.  Whenever [productionplan] answers with a plan, the sum of the
    powers of the plan differs from the requested load by at most 0.5. *)
Theorem plan_sums_to_load (req : payload) (plan : list entry)
    (Hplan : productionplan req = Ok (Json200 plan)) :
  Qabs (sum (map e_power plan) - load req) <= 0.5.
Proof.
  destruct (productionplan_plan req plan Hplan)
    as (rps & lo & hi & _ & _ & _ & Hclose & ->).
  rewrite response_total. exact Hclose.
Qed.

Lemma plan_sums_to_load_witness :
  productionplan mixed_request
  = Ok (Json200 [mkEntry "wind" (90000 # 1000); mkEntry "gas" (10000 # 1000)])
  /\ Qabs (sum (map e_power [mkEntry "wind" (90000 # 1000);
                             mkEntry "gas" (10000 # 1000)])
           - load mixed_request) <= 0.5.
Proof.
  split.
  - vm_compute. reflexivity.
  - apply (plan_sums_to_load mixed_request). vm_compute. reflexivity.
Defined.

(** ** C2: the feasibility gate *)

(** C2.  For a request whose declared minima are non-negative and whose
    candidates have all been built, with [lo] and [hi] the sums of their
    effective minima and maxima: a plan is returned exactly when the load
    lies between [lo] and [hi], and otherwise the answer is the load-range
    error that carries the load and both sums. *)
Theorem feasibility_gate (req : payload) (rps : list running_plant) (lo hi : Q)
    (Hfloor : Forall (fun p => 0 <= p_pmin p) (powerplants req))
    (Hbuilt : process_plants [] (powerplants req) (fuels req)
              = Ok (rps, (PyNumber lo, PyNumber hi))) :
  lo == sum (map pmin rps)
  /\ hi == sum (map pmax rps)
  /\ ((exists plan, productionplan req = Ok (Json200 plan))
      <-> lo <= load req /\ load req <= hi)
  /\ (~ (lo <= load req /\ load req <= hi) ->
      productionplan req
      = Ok (Json400_load_range (load req) (PyNumber lo) (PyNumber hi))).
Proof.
  destruct (process_plants_ok _ _ _ _ _ Hbuilt) as (Hb & Hlo & Hhi).
  pose proof (productionplan_built req rps lo hi Hbuilt) as Hrun.
  assert (0 <= lo) as Hlo0.
  { rewrite Hlo. apply sum_nonneg. eapply built_floors; eassumption. }
  split; [exact Hlo |]. split; [exact Hhi |]. split; [split |].
  - intros [plan Hplan]. rewrite Hrun in Hplan.
    destruct (ltb (load req) lo) eqn:E1; [discriminate |].
    destruct (ltb hi (load req)) eqn:E2; [discriminate |].
    reflect_cmp. split; assumption.
  - intros [H1 H2]. exists (map to_entry (merit_order_fill (load req) rps)).
    rewrite Hrun.
    apply ltb_false in H1. apply ltb_false in H2. rewrite H1, H2. cbn [orb].
    reflect_cmp.
    destruct (merit_fill_balance (load req) rps) as [B1 B2]; [lra | lra |].
    assert (isclose (total_power (merit_order_fill (load req) rps)) (load req) 0.5
            = true) as ->.
    { apply isclose_true, Qabs_Qle_condition. split; lra. }
    reflexivity.
  - intro Hout. rewrite Hrun.
    destruct (ltb (load req) lo) eqn:E1; [reflexivity |].
    destruct (ltb hi (load req)) eqn:E2; [reflexivity |].
    reflect_cmp. exfalso. apply Hout. split; assumption.
Qed.

Lemma feasibility_gate_witness :
  (exists plan, productionplan full_request = Ok (Json200 plan))
  <-> 35 <= load full_request /\ load full_request <= 110.
Proof.
  assert (Forall (fun p => 0 <= p_pmin p) (powerplants full_request)) as Hfloor.
  { repeat constructor; simpl; lra. }
  refine (let H := feasibility_gate full_request
                     [mkRunning "A" "gasfired" 1 5 10 (Finite (100 # 10)) 0;
                      mkRunning "B" "gasfired" (5 # 10) 30 100 (Finite (1000 # 50)) 0]
                     35.0 110.0 Hfloor _ in _).
  destruct H as (_ & _ & H & _).
  split; intro Hx.
  - apply H in Hx. destruct Hx. split; lra.
  - apply H. destruct Hx. split; lra.
  Unshelve. vm_compute. reflexivity.
Defined.

(** ** C3: the load that equals the total minimum *)

(** C3.  With candidates A (bounds 5 and 10, cost 10) and B (bounds 30 and
    100, cost 20) and a load of 35, the plan is A = 10 and B = 25: it sums
    to the load exactly, the rebalancing loop runs no round, and B stays
    under its minimum of 30. *)
Theorem known_edge_case :
  exists a b lo hi,
    process_plants [] (powerplants edge_request) (fuels edge_request)
    = Ok ([a; b], (PyNumber lo, PyNumber hi))
    /\ (name a = "A"%string /\ pmin a == 5 /\ pmax a == 10 /\ exists c, cost a = Finite c /\ c == 10)
    /\ (name b = "B"%string /\ pmin b == 30 /\ pmax b == 100 /\ exists c, cost b = Finite c /\ c == 20)
    /\ productionplan edge_request = Ok (Json200 [mkEntry "A" 10; mkEntry "B" 25])
    /\ sum [10; 25] == load edge_request
    /\ rounds (optional_precision_iteration (load edge_request)
                 (merit_order_fill (load edge_request) [a; b])
                 max_iter 0 minimum_difference) = O
    /\ map to_entry (merit_order_fill (load edge_request) [a; b])
       = [mkEntry "A" 10; mkEntry "B" 25]
    /\ 25 < pmin b.
Proof.
  eexists _, _, _, _.
  split; [vm_compute; reflexivity |].
  split; [split; [reflexivity | split; [reflexivity | split; [reflexivity |]]] |].
  { eexists. split; reflexivity. }
  split; [split; [reflexivity | split; [reflexivity | split; [reflexivity |]]] |].
  { eexists. split; reflexivity. }
  split; [vm_compute; reflexivity |].
  split; [reflexivity |].
  split; [vm_compute; reflexivity |].
  split; [vm_compute; reflexivity |].
  reflexivity.
Qed.

(** ** C4: the operating envelope *)

(** On the request of C3 the entry of B is 25, under B's minimum of 30 by
    more than 1e-6. *)
Lemma floor_not_enforced : ~ envelope_respected edge_request.
Proof.
  intro H.
  assert (process_plants [] (powerplants edge_request) (fuels edge_request)
          = Ok ([mkRunning "A" "gasfired" 1 5 10 (Finite (100 # 10)) 0;
                 mkRunning "B" "gasfired" (5 # 10) 30 100 (Finite (1000 # 50)) 0],
                (PyNumber 35.0, PyNumber 110.0))) as Hpp
      by (vm_compute; reflexivity).
  assert (productionplan edge_request
          = Ok (Json200 [mkEntry "A" 10; mkEntry "B" 25])) as Hplan
      by (vm_compute; reflexivity).
  specialize (H _ _ _ Hpp Hplan
                (mkRunning "B" "gasfired" (5 # 10) 30 100 (Finite (1000 # 50)) 0)
                (mkEntry "B" 25)).
  destruct H as [Hlow _].
  - right. left. reflexivity.
  - right. left. reflexivity.
  - reflexivity.
  - simpl in Hlow. lra.
Qed.

Lemma fill_zeroed_within (load : Q) (rps : list running_plant) :
  Forall (fun c => 0 <= pmax c) rps ->
  Forall (fun c => 0 <= power c /\ power c <= pmax c) (merit_order_fill load rps).
Proof.
  intro Hmax. unfold merit_order_fill. apply fill_within.
  eapply Permutation_Forall; [apply Permutation_sym, sorted_perm |].
  apply Forall_forall. intros p Hp. apply in_map_iff in Hp.
  destruct Hp as (c & <- & Hc). simpl.
  rewrite Forall_forall in Hmax. split; [reflexivity | apply Hmax; exact Hc].
Qed.

Lemma fill_zeroed_perm (load : Q) (rps : list running_plant) :
  Permutation (map (fun c => set_power c 0) (merit_order_fill load rps))
              (map (fun c => set_power c 0) rps).
Proof.
  unfold merit_order_fill. rewrite fill_keeps.
  eapply perm_trans.
  - apply Permutation_map, sorted_perm.
  - rewrite map_map. simpl. apply Permutation_refl.
Qed.

(** C4, amended.  For a request whose declared maxima are non-negative and
    that is answered with a plan, the plan lists the candidates, each with
    its own bounds, and every power lies between 0 and the effective maximum
    of its candidate.  Nothing is promised about the effective minimum. *)
Theorem power_within_ceiling (req : payload) (plan : list entry)
    (Hmax : Forall (fun p => 0 <= p_pmax p) (powerplants req))
    (Hplan : productionplan req = Ok (Json200 plan)) :
  exists rps t filled,
    process_plants [] (powerplants req) (fuels req) = Ok (rps, t)
    /\ Permutation (map (fun c => set_power c 0) filled)
                   (map (fun c => set_power c 0) rps)
    /\ plan = map to_entry filled
    /\ Forall (fun c => 0 <= power c /\ power c <= pmax c) filled.
Proof.
  destruct (productionplan_plan req plan Hplan)
    as (rps & lo & hi & Hpp & _ & _ & _ & ->).
  destruct (process_plants_ok _ _ _ _ _ Hpp) as (Hb & _ & _).
  exists rps, (PyNumber lo, PyNumber hi), (merit_order_fill (load req) rps).
  split; [exact Hpp |].
  split; [apply fill_zeroed_perm |].
  split; [reflexivity |].
  apply fill_zeroed_within. eapply built_ceilings; eassumption.
Qed.

Lemma power_within_ceiling_witness :
  exists rps t filled,
    process_plants [] (powerplants edge_request) (fuels edge_request) = Ok (rps, t)
    /\ Permutation (map (fun c => set_power c 0) filled)
                   (map (fun c => set_power c 0) rps)
    /\ [mkEntry "A" 10; mkEntry "B" 25] = map to_entry filled
    /\ Forall (fun c => 0 <= power c /\ power c <= pmax c) filled.
Proof.
  apply (power_within_ceiling edge_request).
  - repeat constructor; simpl; lra.
  - vm_compute. reflexivity.
Defined.

(** ** C5: the precision of the plan *)

(** C5.  One gas unit from 0 to 10 and a load of 0.25: the plan gives the
    unit 0.25, which is not a whole number of tenths, where rounding to one
    decimal gives 0.2. *)
Theorem plan_not_rounded :
  productionplan quarter_request = Ok (Json200 [mkEntry "gas" 0.25])
  /\ ~ one_decimal 0.25
  /\ round1 0.25 == 0.2.
Proof.
  split; [vm_compute; reflexivity |].
  split; [| vm_compute; reflexivity].
  intros [k Hk]. unfold Qeq in Hk. simpl in Hk. lia.
Qed.

(** ** C6: what starts the rebalancing *)

(** One gas unit from -5 to 10 and a load of -0.25: the request is answered
    with the plan that leaves the unit at 0; the fill has allocated nothing,
    so the imbalance after it is 0.25, above the convergence threshold, yet
    the loop runs no round and leaves it. *)
Lemma small_imbalance_skipped : ~ rebalancer_converges negative_request.
Proof.
  unfold rebalancer_converges. intro H.
  eassert (process_plants [] (powerplants negative_request) (fuels negative_request)
           = Ok (_, (PyNumber _, PyNumber _))) as Hpp
      by (vm_compute; reflexivity).
  assert (productionplan negative_request = Ok (Json200 [mkEntry "gas" 0])) as Hplan
      by (vm_compute; reflexivity).
  destruct (H _ _ _ _ Hplan Hpp) as [Hsmall | Hcap].
  - vm_compute. discriminate.
  - vm_compute in Hsmall. discriminate Hsmall.
  - vm_compute in Hcap. discriminate Hcap.
Qed.

Lemma rebalance_loop_exit (fuel : nat) (load : Q) :
  forall rps n,
    isclose (total_power (fst (rebalance_loop fuel load rps n minimum_difference)))
            load 0.5 = true
    \/ snd (rebalance_loop fuel load rps n minimum_difference) = (n + fuel)%nat.
Proof.
  induction fuel as [| fuel IH]; intros rps n; cbn [rebalance_loop].
  - right. cbn [snd]. lia.
  - destruct (isclose (total_power rps) load 0.5) eqn:E; cbn [negb fst snd].
    + left. exact E.
    + destruct (ltb (Qabs (total_power rps - load)) minimum_difference) eqn:B.
      * exfalso. unfold isclose in E. unfold minimum_difference in B.
        reflect_cmp. lra.
      * destruct (IH (rebalance_round load rps minimum_difference) (S n)) as [H | H].
        -- left. exact H.
        -- right. rewrite H. lia.
Qed.

(** C6, amended.  The rebalancing loop is entered only while the imbalance
    is above 0.5: with an imbalance of at most 0.5 it runs no round and
    leaves every power as it is; in every case it stops with the imbalance
    at most 0.5 or with [max_iter] rounds done, and returns the total of the
    powers it leaves. *)
Theorem rebalancing_gate (load : Q) (rps : list running_plant) :
  (Qabs (total_power rps - load) <= 0.5 ->
   optional_precision_iteration load rps max_iter 0 minimum_difference
   = mkRebalanced rps 0 (total_power rps))
  /\ (Qabs (total_power
              (plants_after
                 (optional_precision_iteration load rps max_iter 0 minimum_difference))
            - load) <= 0.5
      \/ rounds (optional_precision_iteration load rps max_iter 0 minimum_difference)
         = max_iter)
  /\ final_total (optional_precision_iteration load rps max_iter 0 minimum_difference)
     = total_power
         (plants_after
            (optional_precision_iteration load rps max_iter 0 minimum_difference)).
Proof.
  split; [| split].
  - intro H. apply optional_precision_iteration_close, isclose_true. exact H.
  - unfold optional_precision_iteration. rewrite Nat.sub_0_r.
    pose proof (rebalance_loop_exit max_iter load rps 0) as Hexit.
    destruct (rebalance_loop max_iter load rps 0 minimum_difference) as [rps' n'].
    cbn [plants_after rounds fst snd] in *.
    destruct Hexit as [H | H]; [left; apply isclose_true; exact H | right; exact H].
  - unfold optional_precision_iteration.
    destruct (rebalance_loop (max_iter - 0) load rps 0 minimum_difference)
      as [rps' n'].
    reflexivity.
Qed.

Lemma rebalancing_gate_witness :
  optional_precision_iteration (-0.25)
    (merit_order_fill (-0.25) [mkRunning "gas" "gasfired" 1 (-5) 10 (Finite 10) 0])
    max_iter 0 minimum_difference
  = mkRebalanced
      (merit_order_fill (-0.25) [mkRunning "gas" "gasfired" 1 (-5) 10 (Finite 10) 0])
      0
      (total_power
         (merit_order_fill (-0.25) [mkRunning "gas" "gasfired" 1 (-5) 10 (Finite 10) 0])).
Proof.
  apply (proj1 (rebalancing_gate (-0.25)
                  (merit_order_fill (-0.25)
                     [mkRunning "gas" "gasfired" 1 (-5) 10 (Finite 10) 0]))).
  vm_compute. discriminate.
Defined.

(** ** C7: the capacity of a wind turbine *)

Lemma clamp_percent (a : Q) : max 0.0 (min 100.0 a) == clamp a 0 100.
Proof.
  unfold clamp.
  destruct (max_cases 0.0 (min 100.0 a)) as [[H1 E1] | [H1 E1]]; rewrite E1;
    destruct (min_cases 100.0 a) as [[H2 E2] | [H2 E2]]; rewrite E2 in *;
    destruct (Qlt_le_dec a 0); destruct (Qlt_le_dec 100 a); lra.
Qed.

(** C7.  For a wind turbine and a numeric wind reading [a], [obtain_power]
    returns a minimum of 0 and a maximum of the declared maximum times the
    reading clamped to the interval from 0 to 100, over 100: nothing at or
    below 0 percent, the declared maximum at or above 100 percent.  For a
    plant of any other type it returns the declared bounds. *)
Theorem wind_capacity (plant : powerplant) (fuels : fuel_table) :
  (p_type plant = "windturbine"%string ->
   forall a, wind fuels = Number a ->
     exists lo hi,
       obtain_power plant fuels = Ok (lo, hi)
       /\ lo == 0
       /\ hi == p_pmax plant * clamp a 0 100 / 100
       /\ (a <= 0 -> hi == 0)
       /\ (100 <= a -> hi == p_pmax plant))
  /\ (p_type plant <> "windturbine"%string ->
      obtain_power plant fuels = Ok (p_pmin plant, p_pmax plant)).
Proof.
  split.
  - intros Htype a Hwind.
    unfold obtain_power, get_windpowerplant_power.
    rewrite Htype, Hwind. cbn [String.eqb Ascii.eqb Bool.eqb negb float_of bind].
    eexists _, _. split; [reflexivity |].
    pose proof (clamp_percent a) as Hc.
    split; [reflexivity |].
    split; [| split].
    + rewrite Hc. unfold Qdiv. change (/ 100.0) with (10 # 1000).
      change (/ 100) with (1 # 100). ring.
    + intro Ha. rewrite Hc. unfold clamp.
      destruct (Qlt_le_dec a 0); [| destruct (Qlt_le_dec 100 a); [lra |]].
      * unfold Qdiv. ring.
      * assert (a == 0) as -> by lra. unfold Qdiv. ring.
    + intro Ha. rewrite Hc. unfold clamp.
      destruct (Qlt_le_dec a 0); [lra | destruct (Qlt_le_dec 100 a)].
      * unfold Qdiv. change (/ 100.0) with (10 # 1000). ring.
      * assert (a == 100) as -> by lra.
        unfold Qdiv. change (/ 100.0) with (10 # 1000). ring.
  - intro Htype. unfold obtain_power.
    apply String.eqb_neq in Htype. rewrite Htype. reflexivity.
Qed.

Lemma wind_capacity_witness :
  (exists lo hi,
      obtain_power wind_150 windy = Ok (lo, hi)
      /\ lo == 0 /\ hi == 90)
  /\ obtain_power gas_200 windy = Ok (0, 200).
Proof.
  split.
  - destruct (proj1 (wind_capacity wind_150 windy) eq_refl 60 eq_refl)
      as (lo & hi & H & Hlo & Hhi & _).
    exists lo, hi. split; [exact H |]. split; [exact Hlo |].
    rewrite Hhi. vm_compute. reflexivity.
  - apply (proj2 (wind_capacity gas_200 windy)). discriminate.
Defined.

(** ** C8: the cost of a gas-fired unit *)

(** C8.  For a gas-fired plant, with the efficiency taken as 1.0 and the
    CO2 price as 0 when they are absent: without a gas price [compute_cost]
    raises the error of the missing gas price; with a gas price [g] and an
    efficiency other than 0 it returns [g / efficiency + 0.3 * co2]. *)
Theorem gas_cost (plant : powerplant) (fuels : fuel_table)
    (Hgas : p_type plant = "gasfired"%string) :
  (gas fuels = None ->
   compute_cost plant fuels = Raise (ValueError "Missing gas price in fuels"))
  /\ (forall g, gas fuels = Some g ->
        ~ match p_efficiency plant with Some e => e | None => 1.0 end == 0 ->
        compute_cost plant fuels
        = Ok (Finite (g / match p_efficiency plant with Some e => e | None => 1.0 end
                      + 0.3 * match co2 fuels with Some c => c | None => 0 end))).
Proof.
  unfold compute_cost. rewrite Hgas.
  cbn [String.eqb Ascii.eqb Bool.eqb].
  split.
  - intros ->. reflexivity.
  - intros g -> Heff. unfold truediv, get_or in *.
    destruct (Qeq_bool (match p_efficiency plant with Some e => e | None => 1.0 end) 0)
      eqn:E.
    + apply Qeq_bool_iff in E. contradiction.
    + reflexivity.
Qed.

Lemma gas_cost_witness :
  compute_cost gas_200 gas_at_10 = Ok (Finite (10 / 0.5 + 0.3 * 0))
  /\ compute_cost gas_200 (mkFuels None None None Missing)
     = Raise (ValueError "Missing gas price in fuels").
Proof.
  split.
  - apply (proj2 (gas_cost gas_200 gas_at_10 eq_refl) 10 eq_refl).
    vm_compute. discriminate.
  - apply (proj1 (gas_cost gas_200 (mkFuels None None None Missing) eq_refl)).
    reflexivity.
Defined.

(** ** C9: a wind turbine without a wind reading *)

Lemma built_for (fuels : fuel_table) (plants : list powerplant) rps plant :
  Forall2 (built fuels) plants rps -> In plant plants ->
  exists c, built fuels plant c.
Proof.
  induction 1 as [| p c plants rps Hpc _ IH]; intro Hin.
  - destruct Hin.
  - destruct Hin as [-> | Hin]; [exists c; exact Hpc | apply IH; exact Hin].
Qed.

(** A request with a wind turbine and a wind reading that is not a number
    is never answered with a plan. *)
Lemma invalid_wind_no_plan (req : payload) (plant : powerplant) (plan : list entry) :
  In plant (powerplants req) ->
  p_type plant = "windturbine"%string ->
  (forall a, wind (fuels req) <> Number a) ->
  productionplan req <> Ok (Json200 plan).
Proof.
  intros Hin Htype Hwind Hplan.
  destruct (productionplan_plan req plan Hplan) as (rps & lo & hi & Hpp & _).
  destruct (process_plants_ok _ _ _ _ _ Hpp) as (Hb & _ & _).
  destruct (built_for _ _ _ _ Hb Hin) as (c & _ & Hc & _).
  unfold obtain_power, get_windpowerplant_power in Hc.
  rewrite Htype in Hc. cbn [String.eqb Ascii.eqb Bool.eqb negb] in Hc.
  destruct (wind (fuels req)) as [| a |] eqn:E; try discriminate Hc.
  exact (Hwind a eq_refl).
Qed.

(** C9.  A gas unit and a wind turbine with no wind reading in the fuels:
    [obtain_power] raises the error of the invalid reading, [process_plants]
    catches it and returns the error response with the status 400 in place
    of the two totals, and [productionplan] raises a type error when it
    compares the load with that response. *)
Theorem missing_wind_reading :
  obtain_power wind_150 (fuels becalmed_request)
  = Raise (ValueError "Invalid or missing wind(%) in fuels")
  /\ (exists rps,
       process_plants [] (powerplants becalmed_request) (fuels becalmed_request)
       = Ok (rps, (PyResponse "Invalid or missing wind(%) in fuels", PyNumber 400)))
  /\ productionplan becalmed_request = Raise TypeError.
Proof.
  split; [reflexivity |].
  split; [eexists; vm_compute; reflexivity |].
  vm_compute. reflexivity.
Qed.

(** ** C10: the fill is the plan *)

Lemma fill_cost_hd (a a' : running_plant) (rem : Q) (l : list running_plant) :
  cost a' = cost a ->
  HdRel (ascending cost price_ltb) a l ->
  HdRel (ascending cost price_ltb) a' (fst (fill rem l)).
Proof.
  intros Hc Hl. destruct l as [| q t]; simpl.
  - constructor.
  - inversion Hl as [| ? ? Haq]; subst. unfold ascending in Haq.
    destruct (leb rem 0.000000001); simpl.
    + constructor. unfold ascending. rewrite Hc. exact Haq.
    + destruct (fill (rem - min (pmax q - power q) rem) t) as [rest' r].
      simpl. constructor. unfold ascending. simpl. rewrite Hc. exact Haq.
Qed.

Lemma fill_sorted (l : list running_plant) (rem : Q) :
  Sorted (ascending cost price_ltb) l ->
  Sorted (ascending cost price_ltb) (fst (fill rem l)).
Proof.
  revert rem. induction l as [| p l IH]; intros rem Hs; simpl.
  - constructor.
  - destruct (leb rem 0.000000001); simpl; [exact Hs |].
    inversion Hs as [| ? ? Hl Hhd]; subst.
    specialize (IH (rem - min (pmax p - power p) rem) Hl).
    pose proof (fill_cost_hd p (set_power p (power p + min (pmax p - power p) rem))
                  (rem - min (pmax p - power p) rem) l eq_refl Hhd) as Hhd'.
    destruct (fill (rem - min (pmax p - power p) rem) l) as [rest' r].
    simpl in *. constructor; assumption.
Qed.

Lemma merit_order_fill_sorted (load : Q) (rps : list running_plant) :
  Sorted (ascending cost price_ltb) (merit_order_fill load rps).
Proof.
  unfold merit_order_fill. apply fill_sorted, sorted_sorted.
  exact price_ltb_asym.
Qed.

(** C10.  For a request whose declared minima are non-negative and that is
    answered with a plan: the fill leaves the total of the powers within
    1e-9 of the load, the rebalancing loop runs no round and changes no
    power, the reconciliation returns the response as it received it, and
    the plan is the list of the filled powers, unrounded, in ascending order
    of cost. *)
Theorem fill_is_final (req : payload) (plan : list entry)
    (Hfloor : Forall (fun p => 0 <= p_pmin p) (powerplants req))
    (Hplan : productionplan req = Ok (Json200 plan)) :
  exists rps lo hi,
    process_plants [] (powerplants req) (fuels req) = Ok (rps, (PyNumber lo, PyNumber hi))
    /\ Qabs (total_power (merit_order_fill (load req) rps) - load req) <= 0.000000001
    /\ optional_precision_iteration (load req) (merit_order_fill (load req) rps)
         max_iter 0 minimum_difference
       = mkRebalanced (merit_order_fill (load req) rps) 0
           (total_power (merit_order_fill (load req) rps))
    /\ ensure_total_equals_load (load req) (merit_order_fill (load req) rps)
         (map to_entry (merit_order_fill (load req) rps))
         (sum (map e_power (map to_entry (merit_order_fill (load req) rps))))
       = map to_entry (merit_order_fill (load req) rps)
    /\ plan = map to_entry (merit_order_fill (load req) rps)
    /\ Sorted (ascending cost price_ltb) (merit_order_fill (load req) rps).
Proof.
  destruct (productionplan_plan req plan Hplan)
    as (rps & lo & hi & Hpp & Hlo & Hhi & Hclose & ->).
  destruct (process_plants_ok _ _ _ _ _ Hpp) as (Hb & Emin & Emax).
  assert (0 <= lo) as Hlo0.
  { rewrite Emin. apply sum_nonneg. eapply built_floors; eassumption. }
  destruct (merit_fill_balance (load req) rps) as [B1 B2]; [lra | lra |].
  exists rps, lo, hi.
  split; [exact Hpp |].
  split; [apply Qabs_Qle_condition; split; lra |].
  split; [apply optional_precision_iteration_close, isclose_true; exact Hclose |].
  split; [apply (ensure_after_fill (load req) hi); assumption |].
  split; [reflexivity |].
  apply merit_order_fill_sorted.
Qed.

Lemma fill_is_final_witness :
  exists rps lo hi,
    process_plants [] (powerplants mixed_request) (fuels mixed_request)
    = Ok (rps, (PyNumber lo, PyNumber hi))
    /\ Qabs (total_power (merit_order_fill (load mixed_request) rps)
             - load mixed_request) <= 0.000000001
    /\ [mkEntry "wind" (90000 # 1000); mkEntry "gas" (10000 # 1000)]
       = map to_entry (merit_order_fill (load mixed_request) rps).
Proof.
  destruct (fill_is_final mixed_request
              [mkEntry "wind" (90000 # 1000); mkEntry "gas" (10000 # 1000)])
    as (rps & lo & hi & H1 & H2 & _ & _ & H5 & _).
  - repeat constructor; simpl; lra.
  - vm_compute. reflexivity.
  - exists rps, lo, hi. repeat split; assumption.
Defined.

(** * Further properties *)

(** ** Building the candidates *)

(** X1.  When [process_plants] returns the two totals, it has appended to
    the list it was given one candidate per plant, in the order of the
    plants, each with the name, the bounds of [obtain_power], the cost of
    [compute_cost] and no power yet; the totals are the sums of the minima
    and of the maxima of the appended candidates. *)
Theorem process_plants_appends (fuels : fuel_table) (plants : list powerplant)
    (acc rps : list running_plant) (lo hi : Q)
    (Hbuilt : process_plants acc plants fuels = Ok (rps, (PyNumber lo, PyNumber hi))) :
  exists new,
    rps = acc ++ new
    /\ Forall2 (built fuels) plants new
    /\ lo == sum (map pmin new)
    /\ hi == sum (map pmax new).
Proof.
  apply process_plants_loop_ok in Hbuilt.
  destruct Hbuilt as (new & -> & Hnew & Hlo & Hhi).
  exists new. split; [reflexivity |]. split; [exact Hnew |]. split; lra.
Qed.

Lemma process_plants_appends_witness :
  exists new,
    [idle_candidate;
     mkRunning "A" "gasfired" 1 5 10 (Finite (100 # 10)) 0;
     mkRunning "B" "gasfired" (5 # 10) 30 100 (Finite (1000 # 50)) 0]
    = [idle_candidate] ++ new
    /\ Forall2 (built gas_at_10) [unit_A; unit_B] new
    /\ 35.0 == sum (map pmin new)
    /\ 110.0 == sum (map pmax new).
Proof.
  apply (process_plants_appends gas_at_10 [unit_A; unit_B] [idle_candidate]).
  vm_compute. reflexivity.
Defined.

(** ** Cost and capacity *)

Lemma truediv_nonneg (a b q : Q) :
  0 <= a -> 0 < b -> truediv a b = Ok q -> 0 <= q.
Proof.
  unfold truediv. intros Ha Hb H.
  destruct (Qeq_bool b 0); [discriminate |]. injection H as <-.
  apply Qle_shift_div_l; [exact Hb | lra].
Qed.

(** X2.  With a positive efficiency and no negative price in the fuels, a
    finite cost returned by [compute_cost] is not negative. *)
Theorem cost_nonneg (plant : powerplant) (fuels : fuel_table) (q : Q)
    (Heff : 0 < get_or (p_efficiency plant) 1.0)
    (Hprices : prices_nonneg fuels)
    (Hcost : compute_cost plant fuels = Ok (Finite q)) :
  0 <= q.
Proof.
  destruct Hprices as (Hg & Hk & Hc).
  unfold compute_cost in Hcost.
  destruct (p_type plant =? "windturbine")%string.
  { injection Hcost as <-. lra. }
  destruct (p_type plant =? "gasfired")%string.
  { destruct (gas fuels) as [g |]; [| discriminate]. simpl in Hg.
    destruct (truediv g (get_or (p_efficiency plant) 1.0)) as [d | e] eqn:E;
      simpl in Hcost; [| discriminate].
    injection Hcost as <-.
    pose proof (truediv_nonneg _ _ _ Hg Heff E). lra. }
  destruct (p_type plant =? "turbojet")%string; [| discriminate].
  destruct (kerosine fuels) as [k |]; [| discriminate]. simpl in Hk.
  destruct (truediv k (get_or (p_efficiency plant) 1.0)) as [d | e] eqn:E;
    simpl in Hcost; [| discriminate].
  injection Hcost as <-. exact (truediv_nonneg _ _ _ Hk Heff E).
Qed.

Lemma cost_nonneg_witness : 0 <= 1000 # 50.
Proof.
  apply (cost_nonneg gas_200 gas_at_10).
  - vm_compute. reflexivity.
  - repeat split; vm_compute; discriminate.
  - vm_compute. reflexivity.
Defined.

Lemma percent_factor (w : Q) :
  0 <= max 0.0 (min 100.0 w) / 100.0 /\ max 0.0 (min 100.0 w) / 100.0 <= 1.
Proof.
  unfold Qdiv. change (/ 100.0) with (10 # 1000).
  destruct (max_cases 0.0 (min 100.0 w)) as [[H1 E1] | [H1 E1]]; rewrite E1;
    destruct (min_cases 100.0 w) as [[H2 E2] | [H2 E2]]; rewrite E2 in *;
    split; lra.
Qed.

(** X3.  When the declared bounds satisfy [0 <= pmin <= pmax], the bounds
    returned by [obtain_power] satisfy [0 <= min <= max], and the maximum is
    never above the declared one. *)
Theorem capacity_within_declared (plant : powerplant) (fuels : fuel_table) (lo hi : Q)
    (Hmin : 0 <= p_pmin plant) (Hmax : p_pmin plant <= p_pmax plant)
    (Hpower : obtain_power plant fuels = Ok (lo, hi)) :
  0 <= lo /\ lo <= hi /\ hi <= p_pmax plant.
Proof.
  unfold obtain_power, get_windpowerplant_power in Hpower.
  destruct (negb (p_type plant =? "windturbine")%string).
  - injection Hpower as <- <-. repeat split; lra.
  - destruct (float_of (wind fuels)) as [w | e]; simpl in Hpower; [| discriminate].
    injection Hpower as <- <-.
    destruct (percent_factor w) as [F0 F1].
    set (f := max 0.0 (min 100.0 w) / 100.0) in *.
    assert (0 <= p_pmax plant) as Hp by lra.
    split; [lra |]. split.
    + apply Qle_trans with 0; [lra | apply Qmult_le_0_compat; assumption].
    + assert (0 <= p_pmax plant * (1 - f)) as Hx
          by (apply Qmult_le_0_compat; lra).
      lra.
Qed.

Lemma capacity_within_declared_witness :
  0 <= 0.0 /\ 0.0 <= 150 * (60 / 100.0) /\ 150 * (60 / 100.0) <= 150.
Proof.
  apply (capacity_within_declared wind_150 windy).
  - vm_compute. discriminate.
  - vm_compute. discriminate.
  - vm_compute. reflexivity.
Defined.

(** X4.  For a wind turbine with a declared maximum that is not negative,
    more wind never gives a smaller maximum: the maximum returned by
    [obtain_power] is monotone in the wind reading. *)
Theorem more_wind_more_capacity (plant : powerplant) (fa fb : fuel_table)
    (a b la ha lb hb : Q)
    (Htype : p_type plant = "windturbine"%string)
    (Hmax : 0 <= p_pmax plant)
    (Ha : wind fa = Number a) (Hb : wind fb = Number b) (Hab : a <= b)
    (Hpa : obtain_power plant fa = Ok (la, ha))
    (Hpb : obtain_power plant fb = Ok (lb, hb)) :
  ha <= hb.
Proof.
  unfold obtain_power, get_windpowerplant_power in Hpa, Hpb.
  rewrite Htype in Hpa, Hpb. rewrite Ha in Hpa. rewrite Hb in Hpb.
  cbn [String.eqb Ascii.eqb Bool.eqb negb float_of bind] in Hpa, Hpb.
  injection Hpa as <- <-. injection Hpb as <- <-.
  assert (max 0.0 (min 100.0 a) / 100.0 <= max 0.0 (min 100.0 b) / 100.0) as Hf.
  { unfold Qdiv. change (/ 100.0) with (10 # 1000).
    destruct (max_cases 0.0 (min 100.0 a)) as [[H1 E1] | [H1 E1]]; rewrite E1;
      destruct (min_cases 100.0 a) as [[H2 E2] | [H2 E2]]; rewrite E2 in *;
      destruct (max_cases 0.0 (min 100.0 b)) as [[H3 E3] | [H3 E3]]; rewrite E3;
      destruct (min_cases 100.0 b) as [[H4 E4] | [H4 E4]]; rewrite E4 in *; lra. }
  set (x := max 0.0 (min 100.0 a) / 100.0) in *.
  set (y := max 0.0 (min 100.0 b) / 100.0) in *.
  assert (0 <= p_pmax plant * (y - x)) as Hx by (apply Qmult_le_0_compat; lra).
  lra.
Qed.

Lemma more_wind_more_capacity_witness :
  150 * (max 0.0 (min 100.0 60) / 100.0) <= 150 * (max 0.0 (min 100.0 120) / 100.0).
Proof.
  apply (more_wind_more_capacity wind_150 windy (mkFuels None None None (Number 120))
           60 120 0.0 _ 0.0 _ eq_refl).
  - vm_compute. discriminate.
  - reflexivity.
  - reflexivity.
  - vm_compute. discriminate.
  - reflexivity.
  - reflexivity.
Defined.

(** ** Which way a request ends *)

Lemma compute_cost_raises (plant : powerplant) (fuels : fuel_table) (e : exn) :
  compute_cost plant fuels = Raise e ->
  e = ZeroDivisionError \/ exists msg, e = ValueError msg.
Proof.
  unfold compute_cost, truediv.
  destruct (p_type plant =? "windturbine")%string; [discriminate |].
  destruct (p_type plant =? "gasfired")%string.
  { destruct (gas fuels); [| intro H; injection H as <-; eauto].
    destruct (Qeq_bool (get_or (p_efficiency plant) 1.0) 0); simpl;
      [intro H; injection H as <-; auto | discriminate]. }
  destruct (p_type plant =? "turbojet")%string; [| discriminate].
  destruct (kerosine fuels); [| intro H; injection H as <-; eauto].
  destruct (Qeq_bool (get_or (p_efficiency plant) 1.0) 0); simpl;
    [intro H; injection H as <-; auto | discriminate].
Qed.

Lemma well_formed_cost (fuels : fuel_table) (plant : powerplant) :
  well_formed fuels plant -> exists c, compute_cost plant fuels = Ok c.
Proof.
  intros (Heff & Hg & Hk & _). unfold compute_cost, truediv.
  assert (Qeq_bool (get_or (p_efficiency plant) 1.0) 0 = false) as ->.
  { apply not_true_is_false. intro E. apply Qeq_bool_iff in E. contradiction. }
  destruct (p_type plant =? "windturbine")%string; [eauto |].
  destruct (p_type plant =? "gasfired")%string eqn:Eg.
  { apply String.eqb_eq in Eg. destruct (gas fuels); [simpl; eauto |].
    exfalso. apply (Hg Eg). reflexivity. }
  destruct (p_type plant =? "turbojet")%string eqn:Ek; [| eauto].
  apply String.eqb_eq in Ek. destruct (kerosine fuels); [simpl; eauto |].
  exfalso. apply (Hk Ek). reflexivity.
Qed.

Lemma well_formed_power (fuels : fuel_table) (plant : powerplant) :
  well_formed fuels plant -> exists lo hi, obtain_power plant fuels = Ok (lo, hi).
Proof.
  intros (_ & _ & _ & Hw). unfold obtain_power, get_windpowerplant_power.
  destruct (p_type plant =? "windturbine")%string eqn:E; simpl; [| eauto].
  apply String.eqb_eq in E. destruct (Hw E) as [a ->]. simpl. eauto.
Qed.

Lemma process_plants_loop_total (fuels : fuel_table) (plants : list powerplant) :
  Forall (well_formed fuels) plants ->
  forall acc tmax tmin,
  exists rps lo hi,
    process_plants_loop plants fuels acc tmax tmin
    = Ok (rps, (PyNumber lo, PyNumber hi)).
Proof.
  induction 1 as [| plant rest Hp _ IH]; intros acc tmax tmin; simpl.
  - eauto.
  - destruct (well_formed_power _ _ Hp) as (lo1 & hi1 & ->).
    destruct (well_formed_cost _ _ Hp) as (c & ->). simpl. apply IH.
Qed.

Lemma process_plants_loop_raises (fuels : fuel_table) (plants : list powerplant) :
  forall acc tmax tmin e,
    process_plants_loop plants fuels acc tmax tmin = Raise e ->
    e = ZeroDivisionError \/ exists msg, e = ValueError msg.
Proof.
  induction plants as [| plant rest IH]; intros acc tmax tmin e H; simpl in H.
  - discriminate.
  - destruct (obtain_power plant fuels) as [[lo1 hi1] |]; [| discriminate].
    destruct (compute_cost plant fuels) as [c | e'] eqn:Hc; simpl in H.
    + eapply IH. exact H.
    + injection H as <-. eapply compute_cost_raises. exact Hc.
Qed.

Lemma fill_close (load hi : Q) (rps : list running_plant) :
  load <= hi -> hi == sum (map pmax rps) ->
  (isclose (total_power (merit_order_fill load rps)) load 0.5 = true
   <-> - (1 # 2) <= load).
Proof.
  intros Hle Hhi. rewrite isclose_true.
  destruct (Qlt_le_dec load 0) as [Hneg | Hpos].
  - rewrite merit_fill_idle by lra.
    pose proof (total_power_zero _ (zeroed_idle rps)) as Hz.
    rewrite Qabs_Qle_condition. split; intro H; [lra | split; lra].
  - destruct (merit_fill_balance load rps Hpos) as [B1 B2]; [lra |].
    rewrite Qabs_Qle_condition. split; intro H; [lra | split; lra].
Qed.

(** X5.  A request in which every plant is well formed (the price its type
    needs is present, its efficiency is not 0, a wind turbine has a numeric
    wind reading) and no declared minimum is negative is always answered:
    [productionplan] returns a response and raises nothing. *)
Theorem well_formed_request_answered (req : payload)
    (Hwf : Forall (well_formed (fuels req)) (powerplants req))
    (Hfloor : Forall (fun p => 0 <= p_pmin p) (powerplants req)) :
  exists response, productionplan req = Ok response.
Proof.
  destruct (process_plants_loop_total _ _ Hwf [] 0.0 0.0) as (rps & lo & hi & Hpp).
  fold (process_plants [] (powerplants req) (fuels req)) in Hpp.
  destruct (process_plants_ok _ _ _ _ _ Hpp) as (Hb & Hlo & Hhi).
  rewrite (productionplan_built req rps lo hi Hpp).
  destruct (ltb (load req) lo) eqn:E1; cbn [orb]; [eauto |].
  destruct (ltb hi (load req)) eqn:E2; [eauto |].
  reflect_cmp.
  assert (0 <= lo) as Hlo0.
  { rewrite Hlo. apply sum_nonneg. eapply built_floors; eassumption. }
  assert (isclose (total_power (merit_order_fill (load req) rps)) (load req) 0.5
          = true) as ->.
  { apply (fill_close (load req) hi rps E2 Hhi). lra. }
  cbn [negb]. eauto.
Qed.

Lemma well_formed_request_answered_witness :
  exists response, productionplan mixed_request = Ok response.
Proof.
  apply (well_formed_request_answered mixed_request).
  - repeat constructor; try discriminate; simpl; eauto.
  - repeat constructor; simpl; lra.
Defined.

(** X6.  [productionplan] raises the error of the unassigned [final_total]
    in one case only: the candidates are built and the load lies between
    the two totals, but is below -0.5. *)
Theorem unbound_final_total (req : payload) :
  (exists var, productionplan req = Raise (UnboundLocalError var))
  <-> exists rps lo hi,
        process_plants [] (powerplants req) (fuels req)
        = Ok (rps, (PyNumber lo, PyNumber hi))
        /\ lo <= load req /\ load req <= hi /\ load req < - (1 # 2).
Proof.
  split.
  - intros [var H].
    destruct (process_plants [] (powerplants req) (fuels req))
      as [[rps [a b]] | e] eqn:Hpp.
    + destruct (process_plants_loop_shape _ _ _ _ _ _ _ _ Hpp)
        as [(lo & hi & -> & ->) | (body & ->)].
      * destruct (process_plants_ok _ _ _ _ _ Hpp) as (_ & _ & Hhi).
        rewrite (productionplan_built req rps lo hi Hpp) in H.
        destruct (ltb (load req) lo) eqn:E1; [discriminate |].
        destruct (ltb hi (load req)) eqn:E2; [discriminate |].
        cbn [orb] in H. reflect_cmp.
        destruct (isclose (total_power (merit_order_fill (load req) rps))
                          (load req) 0.5) eqn:Hc; [discriminate |].
        exists rps, lo, hi. repeat split; try assumption.
        destruct (Qlt_le_dec (load req) (- (1 # 2))) as [Hlt | Hge]; [exact Hlt |].
        apply (fill_close (load req) hi rps E2 Hhi) in Hge. congruence.
      * rewrite (productionplan_unbuilt req rps body b Hpp) in H. discriminate.
    + unfold productionplan in H. rewrite Hpp in H. simpl in H.
      injection H as ->.
      apply process_plants_loop_raises in Hpp.
      destruct Hpp as [Hc | [msg Hc]]; discriminate.
  - intros (rps & lo & hi & Hpp & H1 & H2 & H3).
    destruct (process_plants_ok _ _ _ _ _ Hpp) as (_ & _ & Hhi).
    rewrite (productionplan_built req rps lo hi Hpp).
    apply ltb_false in H1. apply ltb_false in H2. rewrite H1, H2. cbn [orb].
    reflect_cmp.
    destruct (isclose (total_power (merit_order_fill (load req) rps)) (load req) 0.5)
      eqn:Hc; cbn [negb]; [| eauto].
    apply (fill_close (load req) hi rps H2 Hhi) in Hc. lra.
Qed.

Lemma obtain_power_invalid_wind (fuels : fuel_table) (plant : powerplant) :
  p_type plant = "windturbine"%string ->
  (forall a, wind fuels <> Number a) ->
  exists e, obtain_power plant fuels = Raise e.
Proof.
  intros Htype Hwind. unfold obtain_power, get_windpowerplant_power.
  rewrite Htype. cbn [String.eqb Ascii.eqb Bool.eqb negb].
  destruct (wind fuels) as [| a |] eqn:E; simpl; eauto.
  exfalso. exact (Hwind a eq_refl).
Qed.

Lemma process_plants_loop_invalid_wind (fuels : fuel_table) (plant : powerplant)
    (plants : list powerplant) :
  In plant plants ->
  p_type plant = "windturbine"%string ->
  (forall a, wind fuels <> Number a) ->
  forall acc tmax tmin,
    (exists e, process_plants_loop plants fuels acc tmax tmin = Raise e)
    \/ (exists rps body v,
          process_plants_loop plants fuels acc tmax tmin
          = Ok (rps, (PyResponse body, v))).
Proof.
  intros Hin Htype Hwind.
  induction plants as [| p rest IH]; intros acc tmax tmin; [destruct Hin |].
  simpl. destruct (obtain_power p fuels) as [[lo1 hi1] | e] eqn:Hp.
  - destruct Hin as [-> | Hin].
    + destruct (obtain_power_invalid_wind fuels plant Htype Hwind) as [e He].
      congruence.
    + destruct (compute_cost p fuels) as [c | e]; simpl; [apply IH; exact Hin |].
      left. eauto.
  - right. eauto.
Qed.

(** X7.  A request with a wind turbine among its plants and a wind reading
    that is missing or not a number is never answered, neither with a plan
    nor with an error response: [productionplan] raises, with a type error
    unless [compute_cost] has raised for an earlier plant. *)
Theorem invalid_wind_raises (req : payload) (plant : powerplant)
    (Hin : In plant (powerplants req))
    (Htype : p_type plant = "windturbine"%string)
    (Hwind : forall a, wind (fuels req) <> Number a) :
  productionplan req = Raise TypeError
  \/ productionplan req = Raise ZeroDivisionError
  \/ exists msg, productionplan req = Raise (ValueError msg).
Proof.
  destruct (process_plants_loop_invalid_wind (fuels req) plant (powerplants req)
              Hin Htype Hwind [] 0.0 0.0) as [[e He] | (rps & body & v & Hpp)].
  - right. pose proof (process_plants_loop_raises _ _ _ _ _ _ He) as Hcls.
    unfold productionplan, process_plants. rewrite He. simpl.
    destruct Hcls as [-> | [msg ->]]; eauto.
  - left. eapply productionplan_unbuilt. exact Hpp.
Qed.

Lemma invalid_wind_raises_witness :
  productionplan becalmed_request = Raise TypeError
  \/ productionplan becalmed_request = Raise ZeroDivisionError
  \/ exists msg, productionplan becalmed_request = Raise (ValueError msg).
Proof.
  apply (invalid_wind_raises becalmed_request wind_150).
  - right. left. reflexivity.
  - reflexivity.
  - discriminate.
Defined.

(** X8.  A request without plants is answered with the empty plan when
    the load is 0, and with the load-range error over the range from 0 to 0
    for any other load. *)
Theorem no_plants (req : payload) (Hnone : powerplants req = []) :
  (load req == 0 -> productionplan req = Ok (Json200 []))
  /\ (~ load req == 0 ->
      productionplan req
      = Ok (Json400_load_range (load req) (PyNumber 0.0) (PyNumber 0.0))).
Proof.
  assert (process_plants [] (powerplants req) (fuels req)
          = Ok ([], (PyNumber 0.0, PyNumber 0.0))) as Hpp
      by (rewrite Hnone; reflexivity).
  rewrite (productionplan_built req [] 0.0 0.0 Hpp).
  split; intro Hload.
  - assert (ltb (load req) 0.0 = false) as -> by (apply ltb_false; lra).
    assert (ltb 0.0 (load req) = false) as -> by (apply ltb_false; lra).
    cbn [orb].
    assert (isclose (total_power (merit_order_fill (load req) [])) (load req) 0.5
            = true) as ->.
    { apply isclose_true, Qabs_Qle_condition.
      unfold merit_order_fill, total_power, sum. simpl. split; lra. }
    reflexivity.
  - destruct (ltb (load req) 0.0) eqn:E1; cbn [orb]; [reflexivity |].
    destruct (ltb 0.0 (load req)) eqn:E2; [reflexivity |].
    reflect_cmp. exfalso. apply Hload. lra.
Qed.

Lemma no_plants_witness :
  productionplan (mkPayload 0 [] gas_at_10) = Ok (Json200 [])
  /\ productionplan (mkPayload 35 [] gas_at_10)
     = Ok (Json400_load_range 35 (PyNumber 0.0) (PyNumber 0.0)).
Proof.
  split.
  - apply (proj1 (no_plants (mkPayload 0 [] gas_at_10) eq_refl)). reflexivity.
  - apply (proj2 (no_plants (mkPayload 35 [] gas_at_10) eq_refl)).
    vm_compute. discriminate.
Defined.

(** ** The shape of the plan *)

Lemma built_names (fuels : fuel_table) (plants : list powerplant) rps :
  Forall2 (built fuels) plants rps -> map name rps = map p_name plants.
Proof.
  induction 1 as [| plant c plants rps (Hn & _) _ IH]; simpl.
  - reflexivity.
  - rewrite Hn, IH. reflexivity.
Qed.

(** X9.  A plan has one entry per plant of the request: the names in the
    plan are the names of the plants, each as often as it occurs in the
    request, in some order. *)
Theorem plan_lists_every_plant (req : payload) (plan : list entry)
    (Hplan : productionplan req = Ok (Json200 plan)) :
  Permutation (map e_name plan) (map p_name (powerplants req)).
Proof.
  destruct (productionplan_plan req plan Hplan)
    as (rps & lo & hi & Hpp & _ & _ & _ & ->).
  destruct (process_plants_ok _ _ _ _ _ Hpp) as (Hb & _ & _).
  rewrite <- (built_names _ _ _ Hb).
  rewrite map_map. cbn [to_entry e_name].
  pose proof (fill_zeroed_perm (load req) rps) as Hperm.
  apply (Permutation_map name) in Hperm.
  rewrite !map_map in Hperm. exact Hperm.
Qed.

Lemma plan_lists_every_plant_witness :
  Permutation ["wind"%string; "gas"%string] ["gas"%string; "wind"%string].
Proof.
  apply (plan_lists_every_plant mixed_request
           [mkEntry "wind" (90000 # 1000); mkEntry "gas" (10000 # 1000)]).
  vm_compute. reflexivity.
Defined.

(** X10.  When a plan is returned for a load of at most 1e-9, nothing is
    dispatched: every power in the plan is 0. *)
Theorem tiny_load_idle_plan (req : payload) (plan : list entry)
    (Hplan : productionplan req = Ok (Json200 plan))
    (Htiny : load req <= 0.000000001) :
  Forall (fun e => e_power e = 0) plan.
Proof.
  destruct (productionplan_plan req plan Hplan)
    as (rps & lo & hi & _ & _ & _ & _ & ->).
  rewrite merit_fill_idle by exact Htiny.
  apply Forall_forall. intros e He. apply in_map_iff in He.
  destruct He as (c & <- & Hc).
  apply (Permutation_in _ (sorted_perm cost price_ltb _)) in Hc.
  apply in_map_iff in Hc. destruct Hc as (c0 & <- & _). reflexivity.
Qed.

Lemma tiny_load_idle_plan_witness :
  Forall (fun e => e_power e = 0) [mkEntry "gas" 0].
Proof.
  apply (tiny_load_idle_plan (mkPayload 0 [gas_10] gas_at_10)).
  - vm_compute. reflexivity.
  - vm_compute. discriminate.
Defined.

(** ** The order of the fill *)

Section StableFacts.
Context {A K : Type} (key : A -> K) (klt : K -> K -> bool) (p : A -> bool).
Hypothesis p_ties : forall x y, p x = true -> p y = true -> klt (key y) (key x) = false.

Lemma insert_filter (x : A) (l : list A) :
  filter p (insert key klt x l) = filter p (x :: l).
Proof.
  induction l as [| y t IH]; simpl.
  - reflexivity.
  - destruct (klt (key y) (key x)) eqn:E; simpl; [| reflexivity].
    rewrite IH. simpl.
    destruct (p x) eqn:Px, (p y) eqn:Py; try reflexivity.
    rewrite (p_ties x y Px Py) in E. discriminate.
Qed.

Lemma sorted_filter (l : list A) : filter p (sorted key klt l) = filter p l.
Proof.
  induction l as [| x l IH]; simpl.
  - reflexivity.
  - rewrite insert_filter. simpl. rewrite IH. reflexivity.
Qed.
End StableFacts.

Lemma same_cost_ties (c : price) (x y : running_plant) :
  same_cost c x = true -> same_cost c y = true ->
  price_ltb (cost y) (cost x) = false.
Proof.
  unfold same_cost, price_eqb.
  destruct (cost x) as [qx |], (cost y) as [qy |], c as [qc |];
    try discriminate; try reflexivity.
  intros Hx Hy. apply Qeq_bool_iff in Hx. apply Qeq_bool_iff in Hy.
  simpl. apply ltb_false. lra.
Qed.

Lemma merit_order_fill_unpowered (load : Q) (rps : list running_plant) :
  map unpowered (merit_order_fill load rps)
  = sorted cost price_ltb (map unpowered rps).
Proof.
  unfold merit_order_fill, unpowered. rewrite fill_keeps.
  rewrite <- (map_id (sorted cost price_ltb (map (fun plant => set_power plant 0) rps)))
    at 2.
  apply map_ext_in. intros c Hc.
  apply (Permutation_in _ (sorted_perm cost price_ltb _)) in Hc.
  apply in_map_iff in Hc. destruct Hc as (c0 & <- & _). reflexivity.
Qed.

(** X11.  The fill keeps ties in the order of the request: among the
    candidates of one cost, the filled list has them in the order in which
    they entered, and changes nothing of them but their power. *)
Theorem equal_cost_keeps_order (load : Q) (rps : list running_plant) (c : price) :
  filter (same_cost c) (map unpowered (merit_order_fill load rps))
  = filter (same_cost c) (map unpowered rps).
Proof.
  rewrite merit_order_fill_unpowered.
  apply sorted_filter. intros x y. apply same_cost_ties.
Qed.

Lemma fill_shape (l : list running_plant) :
  Forall (fun c => power c = 0) l ->
  forall rem,
  exists full partial idle,
    fst (fill rem l) = full ++ partial ++ idle
    /\ Forall (fun c => power c == pmax c) full
    /\ (List.length partial <= 1)%nat
    /\ Forall (fun c => power c = 0) idle.
Proof.
  induction 1 as [| p l Hp Hl IH]; intro rem; simpl.
  - exists [], [], [].
    split; [reflexivity |]. split; [constructor |]. split; [simpl; lia | constructor].
  - destruct (leb rem 0.000000001) eqn:Hsmall; simpl.
    + exists [], [], (p :: l).
      split; [reflexivity |]. split; [constructor |].
      split; [simpl; lia | constructor; assumption].
    + reflect_cmp.
      destruct (min_cases (pmax p - power p) rem) as [[Hlt E] | [Hle E]]; rewrite E.
      * rewrite fill_break by lra. simpl.
        exists [], [set_power p (power p + rem)], l.
        split; [reflexivity |]. split; [constructor |].
        split; [simpl; lia | assumption].
      * destruct (IH (rem - (pmax p - power p)))
          as (full & partial & idle & Hfill & Hfull & Hpart & Hidle).
        destruct (fill (rem - (pmax p - power p)) l) as [rest' r]. simpl in *.
        exists (set_power p (power p + (pmax p - power p)) :: full), partial, idle.
        rewrite Hfill.
        split; [reflexivity |]. split; [| split; assumption].
        constructor; [| exact Hfull]. simpl. lra.
Qed.

Lemma ascending_cost_trans (a b c : running_plant) :
  ascending cost price_ltb a b -> ascending cost price_ltb b c ->
  ascending cost price_ltb a c.
Proof.
  unfold ascending.
  destruct (cost a) as [x |], (cost b) as [y |], (cost c) as [z |]; simpl;
    intros H1 H2; try reflexivity; try discriminate.
  reflect_cmp. apply ltb_false. lra.
Qed.

Lemma later_in_tail {A : Type} (x : A) (t l1 : list A) (a : A) (l2 : list A)
    (b : A) (l3 : list A) :
  x :: t = l1 ++ a :: l2 ++ b :: l3 -> In b t.
Proof.
  destruct l1 as [| y l1]; simpl; intro H; injection H as _ ->.
  - apply in_elt.
  - apply in_or_app. right. right. apply in_elt.
Qed.

Lemma fill_merit (l : list running_plant) :
  Forall (fun c => power c = 0) l ->
  forall rem l1 a l2 b l3,
    fst (fill rem l) = l1 ++ a :: l2 ++ b :: l3 ->
    ~ power b == 0 ->
    power a == pmax a.
Proof.
  induction 1 as [| p l Hp Hl IH]; intros rem l1 a l2 b l3 Hsplit Hb; simpl in Hsplit.
  - destruct l1; discriminate.
  - assert (forall t, t :: l = l1 ++ a :: l2 ++ b :: l3 -> False) as Hidle.
    { intros t H. apply later_in_tail in H.
      rewrite Forall_forall in Hl. apply Hb. rewrite (Hl b H). reflexivity. }
    destruct (leb rem 0.000000001) eqn:Hsmall; simpl in Hsplit.
    + exfalso. apply (Hidle p). exact Hsplit.
    + reflect_cmp.
      destruct (min_cases (pmax p - power p) rem) as [[Hlt E] | [Hle E]];
        rewrite E in Hsplit.
      * rewrite fill_break in Hsplit by lra. simpl in Hsplit.
        exfalso. eapply Hidle. exact Hsplit.
      * destruct (fill (rem - (pmax p - power p)) l) as [rest' r] eqn:Efill.
        simpl in Hsplit.
        destruct l1 as [| y l1]; simpl in Hsplit; injection Hsplit as Hhd Htl.
        -- subst a. simpl. lra.
        -- apply (IH (rem - (pmax p - power p)) l1 a l2 b l3); [| exact Hb].
           rewrite Efill. exact Htl.
Qed.

Lemma sorted_pair {A : Type} (R : A -> A -> Prop) (l1 : list A) (a : A)
    (l2 : list A) (b : A) (l3 : list A) :
  StronglySorted R (l1 ++ a :: l2 ++ b :: l3) -> R a b.
Proof.
  induction l1 as [| y l1 IH]; simpl; intro H;
    apply StronglySorted_inv in H; destruct H as [H Hall].
  - rewrite Forall_forall in Hall. apply Hall, in_elt.
  - exact (IH H).
Qed.

Lemma merit_order_fill_pairs (load : Q) (rps l1 : list running_plant)
    (a : running_plant) (l2 : list running_plant) (b : running_plant)
    (l3 : list running_plant) :
  merit_order_fill load rps = l1 ++ a :: l2 ++ b :: l3 ->
  price_ltb (cost b) (cost a) = false /\ (~ power b == 0 -> power a == pmax a).
Proof.
  intro Hsplit. split.
  - pose proof (merit_order_fill_sorted load rps) as Hs.
    apply Sorted_StronglySorted in Hs; [| exact ascending_cost_trans].
    rewrite Hsplit in Hs. exact (sorted_pair _ _ _ _ _ _ Hs).
  - unfold merit_order_fill in Hsplit. eapply fill_merit; [| exact Hsplit].
    apply Forall_forall. intros c Hc.
    apply (Permutation_in _ (sorted_perm cost price_ltb _)) in Hc.
    apply in_map_iff in Hc. destruct Hc as (c0 & <- & _). reflexivity.
Qed.

(** X12.  The fill follows the merit order and spends the load.  In the
    filled list the costs never decrease, and a candidate is given power
    only when every candidate before it is loaded to its maximum; so a
    candidate that is strictly cheaper than one that has been given power is
    loaded to its maximum.  The list is made of candidates loaded to their
    maximum, then at most one with a part load, then candidates left at 0.
    For a load from 0 to the sum of the maxima, the powers add up to the
    load, short of it by at most 1e-9. *)
Theorem merit_order (load : Q) (rps : list running_plant) :
  (forall l1 a l2 b l3,
      merit_order_fill load rps = l1 ++ a :: l2 ++ b :: l3 ->
      price_ltb (cost b) (cost a) = false
      /\ (~ power b == 0 -> power a == pmax a))
  /\ (forall a b,
        In a (merit_order_fill load rps) -> In b (merit_order_fill load rps) ->
        price_ltb (cost a) (cost b) = true ->
        ~ power b == 0 ->
        power a == pmax a)
  /\ (exists full partial idle,
        merit_order_fill load rps = full ++ partial ++ idle
        /\ Forall (fun c => power c == pmax c) full
        /\ (List.length partial <= 1)%nat
        /\ Forall (fun c => power c = 0) idle)
  /\ (0 <= load -> load <= sum (map pmax rps) ->
      0 <= load - total_power (merit_order_fill load rps)
      /\ load - total_power (merit_order_fill load rps) <= 0.000000001).
Proof.
  split; [| split; [| split]].
  - intros l1 a l2 b l3. apply merit_order_fill_pairs.
  - intros a b Ha Hb Hcheaper Hgiven.
    apply in_split in Ha. destruct Ha as (l1 & t & Hsplit).
    rewrite Hsplit in Hb. apply in_app_or in Hb.
    destruct Hb as [Hb | [Hb | Hb]].
    + apply in_split in Hb. destruct Hb as (m1 & m2 & ->).
      rewrite <- app_assoc in Hsplit. simpl in Hsplit.
      destruct (merit_order_fill_pairs _ _ _ _ _ _ _ Hsplit) as [Hord _].
      congruence.
    + subst b. rewrite (price_ltb_asym _ _ Hcheaper) in Hcheaper. discriminate.
    + apply in_split in Hb. destruct Hb as (l2 & l3 & ->).
      destruct (merit_order_fill_pairs _ _ _ _ _ _ _ Hsplit) as [_ Hfull].
      exact (Hfull Hgiven).
  - unfold merit_order_fill. apply fill_shape.
    apply Forall_forall. intros c Hc.
    apply (Permutation_in _ (sorted_perm cost price_ltb _)) in Hc.
    apply in_map_iff in Hc. destruct Hc as (c0 & <- & _). reflexivity.
  - intros Hpos Hmax. apply merit_fill_balance; assumption.
Qed.

Lemma merit_order_witness :
  (0 <= 35 - total_power
            (merit_order_fill 35
               [mkRunning "A" "gasfired" 1 5 10 (Finite 10) 0;
                mkRunning "B" "gasfired" 1 30 100 (Finite 20) 0])
   /\ 35 - total_power
            (merit_order_fill 35
               [mkRunning "A" "gasfired" 1 5 10 (Finite 10) 0;
                mkRunning "B" "gasfired" 1 30 100 (Finite 20) 0])
      <= 0.000000001)
  /\ power (set_power (mkRunning "A" "gasfired" 1 5 10 (Finite 10) 0) (0 + 10))
     == 10.
Proof.
  pose proof (merit_order 35
                [mkRunning "A" "gasfired" 1 5 10 (Finite 10) 0;
                 mkRunning "B" "gasfired" 1 30 100 (Finite 20) 0])
    as (_ & Hcheaper & _ & Hspent).
  split.
  - apply Hspent; vm_compute; discriminate.
  - apply (Hcheaper (set_power (mkRunning "A" "gasfired" 1 5 10 (Finite 10) 0) (0 + 10))
             (set_power (mkRunning "B" "gasfired" 1 30 100 (Finite 20) 0) (0 + 25))).
    + vm_compute. left. reflexivity.
    + vm_compute. right. left. reflexivity.
    + vm_compute. reflexivity.
    + vm_compute. discriminate.
Defined.

(** X13.  A candidate of infinite cost (a plant of a type that is neither
    wind turbine, gas-fired nor turbojet) is filled after every candidate
    of finite cost: in the filled list only candidates of infinite cost
    follow it. *)
Theorem infinite_cost_last (load : Q) (rps l1 l2 : list running_plant)
    (x : running_plant)
    (Hsplit : merit_order_fill load rps = l1 ++ x :: l2)
    (Hinf : cost x = Infinite) :
  Forall (fun c => cost c = Infinite) l2.
Proof.
  pose proof (merit_order_fill_sorted load rps) as Hs.
  apply Sorted_StronglySorted in Hs; [| exact ascending_cost_trans].
  rewrite Hsplit in Hs. clear Hsplit.
  induction l1 as [| y l1 IH]; simpl in Hs.
  - apply StronglySorted_inv in Hs. destruct Hs as [_ Hall].
    apply Forall_impl with (2 := Hall). intros c Hc.
    unfold ascending in Hc. rewrite Hinf in Hc.
    destruct (cost c); [simpl in Hc; discriminate Hc | reflexivity].
  - apply StronglySorted_inv in Hs. destruct Hs as [Hs _]. exact (IH Hs).
Qed.

Lemma infinite_cost_last_witness :
  Forall (fun c => cost c = Infinite)
         [mkRunning "y" "nuclear" 1 0 5 Infinite 0].
Proof.
  apply (infinite_cost_last 3
           [mkRunning "x" "hydro" 1 0 5 Infinite 0;
            idle_candidate;
            mkRunning "y" "nuclear" 1 0 5 Infinite 0]
           [set_power idle_candidate (0 + 3)] _
           (mkRunning "x" "hydro" 1 0 5 Infinite 0)).
  - vm_compute. reflexivity.
  - reflexivity.
Defined.

Lemma sum_terms_small (l : list Q) (e : Q) :
  Forall (fun x => 0 <= x) l -> sum l <= e -> Forall (fun x => x <= e) l.
Proof.
  induction 1 as [| x l Hx Hl IH]; intro Hsum.
  - constructor.
  - rewrite sum_cons in Hsum. pose proof (sum_nonneg l Hl) as Hnn.
    constructor; [lra | apply IH; lra].
Qed.

Lemma sum_map_sub {A : Type} (f g : A -> Q) (l : list A) :
  sum (map (fun a => f a - g a) l) == sum (map f l) - sum (map g l).
Proof.
  induction l as [| a l IH]; simpl.
  - reflexivity.
  - rewrite !sum_cons, IH. lra.
Qed.

(** X14.  When no maximum is negative and the load equals the sum of the
    maxima, the fill brings every candidate to its maximum, up to the 1e-9
    at which the fill stops. *)
Theorem load_at_maximum (load : Q) (rps : list running_plant)
    (Hmax : Forall (fun c => 0 <= pmax c) rps)
    (Hload : load == sum (map pmax rps)) :
  Forall (fun c => pmax c - 0.000000001 <= power c /\ power c <= pmax c)
         (merit_order_fill load rps).
Proof.
  pose proof (fill_zeroed_within load rps Hmax) as Hin.
  assert (0 <= load) as Hpos.
  { rewrite Hload. apply sum_nonneg. apply Forall_map. exact Hmax. }
  destruct (merit_fill_balance load rps Hpos) as [B1 B2]; [lra |].
  assert (sum (map pmax (merit_order_fill load rps)) == sum (map pmax rps)) as Hp.
  { pose proof (fill_zeroed_perm load rps) as Hperm.
    apply (Permutation_map pmax) in Hperm. rewrite !map_map in Hperm.
    apply sum_perm. exact Hperm. }
  assert (Forall (fun x => x <= 0.000000001)
                 (map (fun c => pmax c - power c) (merit_order_fill load rps))) as Hs.
  { apply sum_terms_small.
    - apply Forall_map. apply Forall_impl with (2 := Hin). intros c [_ H]. lra.
    - rewrite sum_map_sub. fold (total_power (merit_order_fill load rps)). lra. }
  rewrite Forall_map in Hs. rewrite Forall_forall in *.
  intros c Hc. specialize (Hs c Hc). specialize (Hin c Hc). simpl in Hs. lra.
Qed.

Lemma load_at_maximum_witness :
  Forall (fun c => pmax c - 0.000000001 <= power c /\ power c <= pmax c)
         (merit_order_fill 110
            [mkRunning "A" "gasfired" 1 5 10 (Finite 10) 0;
             mkRunning "B" "gasfired" 1 30 100 (Finite 20) 0]).
Proof.
  apply load_at_maximum.
  - repeat constructor; simpl; lra.
  - vm_compute. reflexivity.
Defined.

(** ** The passes of the rebalancing loop *)

Lemma reduce_bounds (md : Q) (l : list (nat * running_plant)) :
  forall diff,
    Forall within_bounds (map snd l) ->
    Forall within_bounds (map snd (reduce md diff l)).
Proof.
  induction l as [| [i p] rest IH]; intros diff Hl; simpl.
  - constructor.
  - destruct (leb diff md); [exact Hl |].
    simpl in Hl. inversion Hl as [| ? ? [Hlo Hhi] Hrest]; subst.
    destruct (ltb 0 (min (power p - pmin p) diff)) eqn:Hpos; simpl.
    + constructor; [| apply IH; exact Hrest].
      unfold within_bounds. simpl. reflect_cmp.
      destruct (min_cases (power p - pmin p) diff) as [[H E] | [H E]];
        rewrite E in *; split; lra.
    + constructor; [split; assumption | apply IH; exact Hrest].
Qed.

Lemma increase_bounds (md : Q) (l : list (nat * running_plant)) :
  forall need,
    Forall within_bounds (map snd l) ->
    Forall within_bounds (map snd (increase md need l)).
Proof.
  induction l as [| [i p] rest IH]; intros need Hl; simpl.
  - constructor.
  - destruct (leb need md); [exact Hl |].
    simpl in Hl. inversion Hl as [| ? ? [Hlo Hhi] Hrest]; subst.
    destruct (ltb 0 (min (pmax p - power p) need)) eqn:Hpos; simpl.
    + constructor; [| apply IH; exact Hrest].
      unfold within_bounds. simpl. reflect_cmp.
      destruct (min_cases (pmax p - power p) need) as [[H E] | [H E]];
        rewrite E in *; split; lra.
    + constructor; [split; assumption | apply IH; exact Hrest].
Qed.

Lemma releasable_cons (p : running_plant) (l : list running_plant) :
  releasable (p :: l) == max 0 (power p - pmin p) + releasable l.
Proof. unfold releasable. simpl. apply sum_cons. Qed.

Lemma spare_capacity_cons (p : running_plant) (l : list running_plant) :
  spare_capacity (p :: l) == max 0 (pmax p - power p) + spare_capacity l.
Proof. unfold spare_capacity. simpl. apply sum_cons. Qed.

(** What a pass leaves of the surplus it was given. *)
Lemma reduce_total (md : Q) (l : list (nat * running_plant)) :
  forall diff,
    0 <= diff ->
    exists left,
      0 <= left /\ left <= diff
      /\ total_power (map snd (reduce md diff l))
         == total_power (map snd l) - (diff - left)
      /\ (0 <= md -> diff <= md \/ diff <= releasable (map snd l) -> left <= md).
Proof.
  induction l as [| [i p] rest IH]; intros diff Hdiff; simpl.
  - exists diff. split; [lra |]. split; [lra |]. split; [lra |].
    intros Hmd [H | H]; [exact H |]. unfold releasable, sum in H. simpl in H. lra.
  - destruct (leb diff md) eqn:Hstop; reflect_cmp.
    + exists diff. split; [lra |]. split; [lra |]. split; [simpl; lra |].
      intros _ _. exact Hstop.
    + destruct (ltb 0 (min (power p - pmin p) diff)) eqn:Hpos; reflect_cmp.
      * destruct (IH (diff - min (power p - pmin p) diff)) as (left & L0 & L1 & Lt & Lm).
        { destruct (min_cases (power p - pmin p) diff) as [[H E] | [H E]];
            rewrite E; lra. }
        exists left. simpl. rewrite !total_power_cons. simpl.
        split; [exact L0 |]. split; [lra |]. split; [lra |].
        intros Hmd Hroom. apply Lm; [exact Hmd |].
        rewrite releasable_cons in Hroom.
        destruct (min_cases (power p - pmin p) diff) as [[H E] | [H E]];
          rewrite E in *; [left; lra |].
        destruct (max_cases 0 (power p - pmin p)) as [[H' E'] | [H' E']];
          rewrite E' in Hroom; right; lra.
      * destruct (IH diff Hdiff) as (left & L0 & L1 & Lt & Lm).
        exists left. simpl. rewrite !total_power_cons.
        split; [exact L0 |]. split; [exact L1 |]. split; [lra |].
        intros Hmd Hroom. apply Lm; [exact Hmd |].
        rewrite releasable_cons in Hroom.
        destruct (min_cases (power p - pmin p) diff) as [[H E] | [H E]];
          rewrite E in *;
          destruct (max_cases 0 (power p - pmin p)) as [[H' E'] | [H' E']];
          rewrite E' in Hroom; right; lra.
Qed.

Lemma increase_total (md : Q) (l : list (nat * running_plant)) :
  forall need,
    0 <= need ->
    exists left,
      0 <= left /\ left <= need
      /\ total_power (map snd (increase md need l))
         == total_power (map snd l) + (need - left)
      /\ (0 <= md -> need <= md \/ need <= spare_capacity (map snd l) -> left <= md).
Proof.
  induction l as [| [i p] rest IH]; intros need Hneed; simpl.
  - exists need. split; [lra |]. split; [lra |]. split; [lra |].
    intros Hmd [H | H]; [exact H |]. unfold spare_capacity, sum in H. simpl in H. lra.
  - destruct (leb need md) eqn:Hstop; reflect_cmp.
    + exists need. split; [lra |]. split; [lra |]. split; [simpl; lra |].
      intros _ _. exact Hstop.
    + destruct (ltb 0 (min (pmax p - power p) need)) eqn:Hpos; reflect_cmp.
      * destruct (IH (need - min (pmax p - power p) need)) as (left & L0 & L1 & Lt & Lm).
        { destruct (min_cases (pmax p - power p) need) as [[H E] | [H E]];
            rewrite E; lra. }
        exists left. simpl. rewrite !total_power_cons. simpl.
        split; [exact L0 |]. split; [lra |]. split; [lra |].
        intros Hmd Hroom. apply Lm; [exact Hmd |].
        rewrite spare_capacity_cons in Hroom.
        destruct (min_cases (pmax p - power p) need) as [[H E] | [H E]];
          rewrite E in *; [left; lra |].
        destruct (max_cases 0 (pmax p - power p)) as [[H' E'] | [H' E']];
          rewrite E' in Hroom; right; lra.
      * destruct (IH need Hneed) as (left & L0 & L1 & Lt & Lm).
        exists left. simpl. rewrite !total_power_cons.
        split; [exact L0 |]. split; [exact L1 |]. split; [lra |].
        intros Hmd Hroom. apply Lm; [exact Hmd |].
        rewrite spare_capacity_cons in Hroom.
        destruct (min_cases (pmax p - power p) need) as [[H E] | [H E]];
          rewrite E in *;
          destruct (max_cases 0 (pmax p - power p)) as [[H' E'] | [H' E']];
          rewrite E' in Hroom; right; lra.
Qed.

(** ** A round of the rebalancing loop *)

Lemma enumerate_from_snd {A : Type} (l : list A) :
  forall s, map snd (combine (seq s (List.length l)) l) = l.
Proof.
  induction l as [| a l IH]; intro s; simpl.
  - reflexivity.
  - rewrite IH. reflexivity.
Qed.

Lemma enumerate_snd {A : Type} (l : list A) : map snd (enumerate l) = l.
Proof. apply enumerate_from_snd. Qed.

Section SortedRevFacts.
Context {A K : Type} (key : A -> K) (klt : K -> K -> bool).

Lemma insert_rev_perm (x : A) (l : list A) :
  Permutation (insert_rev key klt x l) (x :: l).
Proof.
  induction l as [| y t IH]; simpl.
  - apply Permutation_refl.
  - destruct (klt (key x) (key y)).
    + apply perm_trans with (y :: x :: t).
      * apply perm_skip. exact IH.
      * apply perm_swap.
    + apply Permutation_refl.
Qed.

Lemma sorted_rev_perm (l : list A) : Permutation (sorted_rev key klt l) l.
Proof.
  induction l as [| x l IH]; simpl.
  - apply perm_nil.
  - apply perm_trans with (x :: sorted_rev key klt l).
    + apply insert_rev_perm.
    + apply perm_skip. exact IH.
Qed.
End SortedRevFacts.

Lemma in_place_perm {A : Type} (l : list (nat * A)) :
  Permutation (in_place l) (map snd l).
Proof. unfold in_place. apply Permutation_map, sorted_perm. Qed.

Lemma total_power_perm (l l' : list running_plant) :
  Permutation l l' -> total_power l == total_power l'.
Proof. intro H. unfold total_power. apply sum_perm, Permutation_map, H. Qed.

Lemma by_cost_down_perm (rps : list running_plant) :
  Permutation (map snd (sorted_rev by_cost price_ltb (enumerate rps))) rps.
Proof.
  rewrite <- (enumerate_snd rps) at 2. apply Permutation_map, sorted_rev_perm.
Qed.

Lemma by_cost_up_perm (rps : list running_plant) :
  Permutation (map snd (sorted by_cost price_ltb (enumerate rps))) rps.
Proof.
  rewrite <- (enumerate_snd rps) at 2. apply Permutation_map, sorted_perm.
Qed.

Lemma rebalance_round_down (load : Q) (rps : list running_plant) (md : Q) :
  load < total_power rps ->
  exists left,
    0 <= left /\ left <= total_power rps - load
    /\ total_power (rebalance_round load rps md) == load + left
    /\ (0 <= md -> total_power rps - load <= releasable rps -> left <= md).
Proof.
  intro Hover. unfold rebalance_round.
  assert (ltb 0 (total_power rps - load) = true) as -> by (apply ltb_true; lra).
  pose proof (by_cost_down_perm rps) as Hperm.
  set (walk := sorted_rev by_cost price_ltb (enumerate rps)) in *.
  destruct (reduce_total md walk (total_power rps - load)) as (left & L0 & L1 & Lt & Lm);
    [lra |].
  rewrite (total_power_perm _ _ Hperm) in Lt.
  exists left. split; [exact L0 |]. split; [exact L1 |]. split.
  - rewrite (total_power_perm _ _ (in_place_perm _)). lra.
  - intros Hmd Hroom. apply Lm; [exact Hmd |]. right.
    unfold releasable in *.
    rewrite (sum_perm _ _ (Permutation_map _ Hperm)). exact Hroom.
Qed.

Lemma rebalance_round_up (load : Q) (rps : list running_plant) (md : Q) :
  total_power rps <= load ->
  exists left,
    0 <= left /\ left <= load - total_power rps
    /\ total_power (rebalance_round load rps md) == load - left
    /\ (0 <= md -> load - total_power rps <= spare_capacity rps -> left <= md).
Proof.
  intro Hunder. unfold rebalance_round.
  assert (ltb 0 (total_power rps - load) = false) as -> by (apply ltb_false; lra).
  pose proof (by_cost_up_perm rps) as Hperm.
  set (walk := sorted by_cost price_ltb (enumerate rps)) in *.
  destruct (increase_total md walk (- (total_power rps - load)))
    as (left & L0 & L1 & Lt & Lm); [lra |].
  rewrite (total_power_perm _ _ Hperm) in Lt.
  exists left. split; [exact L0 |]. split; [lra |]. split.
  - rewrite (total_power_perm _ _ (in_place_perm _)). lra.
  - intros Hmd Hroom. apply Lm; [exact Hmd |]. right.
    unfold spare_capacity in *.
    rewrite (sum_perm _ _ (Permutation_map _ Hperm)). lra.
Qed.

Lemma rebalance_round_bounds (load : Q) (rps : list running_plant) (md : Q) :
  Forall within_bounds rps -> Forall within_bounds (rebalance_round load rps md).
Proof.
  intro H. unfold rebalance_round.
  destruct (ltb 0 (total_power rps - load)).
  - eapply Permutation_Forall; [apply Permutation_sym, in_place_perm |].
    apply reduce_bounds.
    eapply Permutation_Forall; [apply Permutation_sym, by_cost_down_perm | exact H].
  - eapply Permutation_Forall; [apply Permutation_sym, in_place_perm |].
    apply increase_bounds.
    eapply Permutation_Forall; [apply Permutation_sym, by_cost_up_perm | exact H].
Qed.

(** X15.  A round of the rebalancing loop moves the total towards the load
    and never past it: above the load the total goes down and stays at or
    above the load, at or below the load it goes up and stays at or below
    the load. *)
Theorem round_moves_towards_load (load : Q) (rps : list running_plant) (md : Q) :
  (load < total_power rps ->
   load <= total_power (rebalance_round load rps md)
   /\ total_power (rebalance_round load rps md) <= total_power rps)
  /\ (total_power rps <= load ->
      total_power rps <= total_power (rebalance_round load rps md)
      /\ total_power (rebalance_round load rps md) <= load).
Proof.
  split; intro H.
  - destruct (rebalance_round_down load rps md H) as (left & L0 & L1 & Lt & _).
    split; lra.
  - destruct (rebalance_round_up load rps md H) as (left & L0 & L1 & Lt & _).
    split; lra.
Qed.

Lemma round_moves_towards_load_witness :
  5 <= total_power (rebalance_round 5
                      [mkRunning "a" "gasfired" 1 0 10 (Finite 3) 10;
                       mkRunning "b" "gasfired" 1 1 2 (Finite 1) 2] 0.000001)
  /\ total_power (rebalance_round 5
                    [mkRunning "a" "gasfired" 1 0 10 (Finite 3) 10;
                     mkRunning "b" "gasfired" 1 1 2 (Finite 1) 2] 0.000001)
     <= total_power [mkRunning "a" "gasfired" 1 0 10 (Finite 3) 10;
                     mkRunning "b" "gasfired" 1 1 2 (Finite 1) 2].
Proof.
  apply (proj1 (round_moves_towards_load 5
                  [mkRunning "a" "gasfired" 1 0 10 (Finite 3) 10;
                   mkRunning "b" "gasfired" 1 1 2 (Finite 1) 2] 0.000001)).
  vm_compute. reflexivity.
Defined.

Lemma closer_abs (t t' load : Q) :
  (load < t -> load <= t' /\ t' <= t) ->
  (t <= load -> t <= t' /\ t' <= load) ->
  Qabs (t' - load) <= Qabs (t - load).
Proof.
  intros Hdown Hup.
  destruct (Qlt_le_dec load t) as [H | H].
  - destruct (Hdown H). rewrite !Qabs_pos by lra. lra.
  - destruct (Hup H). rewrite !Qabs_neg by lra. lra.
Qed.

Lemma rebalance_loop_bounds (fuel : nat) (load md : Q) :
  forall rps n,
    Forall within_bounds rps ->
    Forall within_bounds (fst (rebalance_loop fuel load rps n md)).
Proof.
  induction fuel as [| fuel IH]; intros rps n H; cbn [rebalance_loop].
  - exact H.
  - destruct (isclose (total_power rps) load 0.5); cbn [negb]; [exact H |].
    destruct (ltb (Qabs (total_power rps - load)) md); [exact H |].
    apply IH, rebalance_round_bounds, H.
Qed.

Lemma rebalance_loop_never_worse (fuel : nat) (load md : Q) :
  forall rps n,
    Qabs (total_power (fst (rebalance_loop fuel load rps n md)) - load)
    <= Qabs (total_power rps - load).
Proof.
  induction fuel as [| fuel IH]; intros rps n; cbn [rebalance_loop].
  - cbn [fst]. lra.
  - destruct (isclose (total_power rps) load 0.5); cbn [negb fst]; [lra |].
    destruct (ltb (Qabs (total_power rps - load)) md); cbn [fst]; [lra |].
    eapply Qle_trans; [apply IH |].
    apply closer_abs.
    + intro H. destruct (rebalance_round_down load rps md H) as (l & ? & ? & ? & _).
      split; lra.
    + intro H. destruct (rebalance_round_up load rps md H) as (l & ? & ? & ? & _).
      split; lra.
Qed.

(** X16.  The rebalancing keeps every plant between its bounds: when each
    power starts between the minimum and the maximum of its plant, so does
    each power that [optional_precision_iteration] leaves. *)
Theorem rebalancing_keeps_bounds (load : Q) (rps : list running_plant)
    (mi n : nat) (md : Q)
    (Hin : Forall within_bounds rps) :
  Forall within_bounds (plants_after (optional_precision_iteration load rps mi n md)).
Proof.
  unfold optional_precision_iteration.
  pose proof (rebalance_loop_bounds (mi - n) load md rps n Hin) as H.
  destruct (rebalance_loop (mi - n) load rps n md) as [rps' n']. exact H.
Qed.

(** X17.  The rebalancing never widens the gap: the total that
    [optional_precision_iteration] returns is at most as far from the load
    as the total it started from, and it is the total of the powers it
    leaves. *)
Theorem rebalancing_never_worse (load : Q) (rps : list running_plant)
    (mi n : nat) (md : Q) :
  Qabs (final_total (optional_precision_iteration load rps mi n md) - load)
  <= Qabs (total_power rps - load)
  /\ final_total (optional_precision_iteration load rps mi n md)
     = total_power (plants_after (optional_precision_iteration load rps mi n md)).
Proof.
  unfold optional_precision_iteration.
  pose proof (rebalance_loop_never_worse (mi - n) load md rps n) as H.
  destruct (rebalance_loop (mi - n) load rps n md) as [rps' n'].
  split; [exact H | reflexivity].
Qed.

Lemma rebalancing_keeps_bounds_witness :
  Forall within_bounds
         (plants_after
            (optional_precision_iteration 5
               [mkRunning "a" "gasfired" 1 0 10 (Finite 3) 10;
                mkRunning "b" "gasfired" 1 1 2 (Finite 1) 2] max_iter 0
               minimum_difference)).
Proof.
  apply rebalancing_keeps_bounds.
  repeat constructor; simpl; lra.
Defined.

(** ** One round is enough when the plants have the room *)

Lemma far_above (t load md : Q) :
  md <= 0.5 -> 0.5 < t - load ->
  isclose t load 0.5 = false /\ ltb (Qabs (t - load)) md = false.
Proof.
  intros Hmd Hfar. unfold isclose. split.
  - apply leb_false. rewrite Qabs_pos by lra. exact Hfar.
  - apply ltb_false. rewrite Qabs_pos by lra. lra.
Qed.

Lemma far_below (t load md : Q) :
  md <= 0.5 -> 0.5 < load - t ->
  isclose t load 0.5 = false /\ ltb (Qabs (t - load)) md = false.
Proof.
  intros Hmd Hfar. unfold isclose. split.
  - apply leb_false. rewrite Qabs_neg by lra. lra.
  - apply ltb_false. rewrite Qabs_neg by lra. lra.
Qed.

(** X18.  With a surplus above 0.5 that the plants can release above their
    minima, and a round still allowed, the rebalancing is done after one
    round: [iter_count] goes up by one and the total it returns is at or
    above the load, by at most [minimum_difference]. *)
Theorem one_round_releases (load : Q) (rps : list running_plant)
    (mi n : nat) (md : Q)
    (Hround : (n < mi)%nat) (Hmd0 : 0 <= md) (Hmd : md <= 0.5)
    (Hfar : 0.5 < total_power rps - load)
    (Hroom : total_power rps - load <= releasable rps) :
  rounds (optional_precision_iteration load rps mi n md) = S n
  /\ load <= final_total (optional_precision_iteration load rps mi n md)
  /\ final_total (optional_precision_iteration load rps mi n md) <= load + md.
Proof.
  unfold optional_precision_iteration.
  destruct (mi - n)%nat as [| fuel] eqn:Efuel; [lia |].
  cbn [rebalance_loop].
  destruct (far_above (total_power rps) load md Hmd Hfar) as [-> ->]. cbn [negb].
  destruct (rebalance_round_down load rps md) as (left & L0 & L1 & Lt & Lm); [lra |].
  specialize (Lm Hmd0 Hroom).
  rewrite rebalance_loop_close.
  - cbn [rounds final_total]. repeat split; lra.
  - apply isclose_true, Qabs_Qle_condition. split; lra.
Qed.

Lemma one_round_releases_witness :
  rounds (optional_precision_iteration 5
            [mkRunning "a" "gasfired" 1 0 10 (Finite 3) 10;
             mkRunning "b" "gasfired" 1 1 2 (Finite 1) 2] max_iter 0
            minimum_difference) = 1%nat.
Proof.
  apply (one_round_releases 5
           [mkRunning "a" "gasfired" 1 0 10 (Finite 3) 10;
            mkRunning "b" "gasfired" 1 1 2 (Finite 1) 2] max_iter 0
           minimum_difference).
  - unfold max_iter. lia.
  - vm_compute. discriminate.
  - vm_compute. discriminate.
  - vm_compute. reflexivity.
  - vm_compute. discriminate.
Defined.

(** X19.  With a shortfall above 0.5 that the plants can take up below
    their maxima, and a round still allowed, the rebalancing is done after
    one round: [iter_count] goes up by one and the total it returns is at
    or below the load, by at most [minimum_difference]. *)
Theorem one_round_absorbs (load : Q) (rps : list running_plant)
    (mi n : nat) (md : Q)
    (Hround : (n < mi)%nat) (Hmd0 : 0 <= md) (Hmd : md <= 0.5)
    (Hfar : 0.5 < load - total_power rps)
    (Hroom : load - total_power rps <= spare_capacity rps) :
  rounds (optional_precision_iteration load rps mi n md) = S n
  /\ load - md <= final_total (optional_precision_iteration load rps mi n md)
  /\ final_total (optional_precision_iteration load rps mi n md) <= load.
Proof.
  unfold optional_precision_iteration.
  destruct (mi - n)%nat as [| fuel] eqn:Efuel; [lia |].
  cbn [rebalance_loop].
  destruct (far_below (total_power rps) load md Hmd Hfar) as [-> ->]. cbn [negb].
  destruct (rebalance_round_up load rps md) as (left & L0 & L1 & Lt & Lm); [lra |].
  specialize (Lm Hmd0 Hroom).
  rewrite rebalance_loop_close.
  - cbn [rounds final_total]. repeat split; lra.
  - apply isclose_true, Qabs_Qle_condition. split; lra.
Qed.

Lemma one_round_absorbs_witness :
  rounds (optional_precision_iteration 5
            [mkRunning "a" "gasfired" 1 0 10 (Finite 3) 0;
             mkRunning "b" "gasfired" 1 0 2 (Finite 1) 0] max_iter 0
            minimum_difference) = 1%nat.
Proof.
  apply (one_round_absorbs 5
           [mkRunning "a" "gasfired" 1 0 10 (Finite 3) 0;
            mkRunning "b" "gasfired" 1 0 2 (Finite 1) 0] max_iter 0
           minimum_difference).
  - unfold max_iter. lia.
  - vm_compute. discriminate.
  - vm_compute. discriminate.
  - vm_compute. reflexivity.
  - vm_compute. discriminate.
Defined.

(** ** The plants stay where they are *)

Lemma nat_ltb_asym (a b : nat) : Nat.ltb a b = true -> Nat.ltb b a = false.
Proof.
  intro H. apply Nat.ltb_lt in H. apply Nat.ltb_ge. lia.
Qed.

Lemma index_order_trans {A : Type} (a b c : nat * A) :
  ascending fst Nat.ltb a b -> ascending fst Nat.ltb b c ->
  ascending fst Nat.ltb a c.
Proof.
  unfold ascending. intros H1 H2.
  apply Nat.ltb_ge in H1. apply Nat.ltb_ge in H2. apply Nat.ltb_ge. lia.
Qed.

Lemma index_sorted_unique {A : Type} (l1 : list (nat * A)) :
  forall l2,
    StronglySorted (ascending fst Nat.ltb) l1 ->
    StronglySorted (ascending fst Nat.ltb) l2 ->
    NoDup (map fst l1) ->
    Permutation l1 l2 ->
    l1 = l2.
Proof.
  induction l1 as [| a t1 IH]; intros l2 S1 S2 ND P.
  - apply Permutation_nil in P. subst. reflexivity.
  - destruct l2 as [| b t2];
      [apply Permutation_sym, Permutation_nil in P; discriminate |].
    apply StronglySorted_inv in S1. destruct S1 as [S1 F1].
    apply StronglySorted_inv in S2. destruct S2 as [S2 F2].
    simpl in ND. inversion ND as [| ? ? Hnotin ND']; subst.
    assert (a = b) as Hab.
    { assert (In a (b :: t2)) as Ha by (apply (Permutation_in _ P); left; reflexivity).
      assert (In b (a :: t1)) as Hb
          by (apply (Permutation_in _ (Permutation_sym P)); left; reflexivity).
      destruct Ha as [Ha | Ha]; [symmetry; exact Ha |].
      destruct Hb as [Hb | Hb]; [exact Hb |].
      exfalso. apply Hnotin.
      rewrite Forall_forall in F1, F2.
      pose proof (F1 b Hb) as H1. pose proof (F2 a Ha) as H2.
      unfold ascending in H1, H2.
      apply Nat.ltb_ge in H1. apply Nat.ltb_ge in H2.
      replace (fst a) with (fst b) by lia.
      apply in_map. exact Hb. }
    subst b. f_equal.
    apply IH; try assumption.
    eapply Permutation_cons_inv. exact P.
Qed.

Lemma enumerate_from_fst {A : Type} (l : list A) :
  forall s, map fst (combine (seq s (List.length l)) l) = seq s (List.length l).
Proof.
  induction l as [| a l IH]; intro s; simpl.
  - reflexivity.
  - rewrite IH. reflexivity.
Qed.

Lemma enumerate_from_sorted {A : Type} (l : list A) :
  forall s,
    StronglySorted (ascending fst Nat.ltb) (combine (seq s (List.length l)) l).
Proof.
  induction l as [| a l IH]; intro s; simpl.
  - constructor.
  - constructor; [apply IH |].
    apply Forall_forall. intros [i b] Hin.
    apply in_combine_l in Hin. apply in_seq in Hin.
    unfold ascending. simpl. apply Nat.ltb_ge. lia.
Qed.

Lemma in_place_restore {A : Type} (w : list (nat * A)) (l : list A) :
  Permutation w (enumerate l) -> in_place w = l.
Proof.
  intro P. unfold in_place.
  rewrite <- (enumerate_snd l) at 1. f_equal. symmetry.
  apply index_sorted_unique.
  - apply enumerate_from_sorted.
  - apply Sorted_StronglySorted; [exact index_order_trans |].
    apply sorted_sorted. exact nat_ltb_asym.
  - unfold enumerate. rewrite enumerate_from_fst. apply seq_NoDup.
  - apply Permutation_sym. eapply perm_trans; [apply sorted_perm | exact P].
Qed.

(** A plant of a pass with its power put aside. *)
Lemma reduce_keeps (md : Q) (l : list (nat * running_plant)) :
  forall diff,
    map (fun ip => (fst ip, unpowered (snd ip))) (reduce md diff l)
    = map (fun ip => (fst ip, unpowered (snd ip))) l.
Proof.
  induction l as [| [i p] rest IH]; intro diff; simpl.
  - reflexivity.
  - destruct (leb diff md); [reflexivity |].
    destruct (ltb 0 (min (power p - pmin p) diff)); simpl; rewrite IH; reflexivity.
Qed.

Lemma increase_keeps (md : Q) (l : list (nat * running_plant)) :
  forall need,
    map (fun ip => (fst ip, unpowered (snd ip))) (increase md need l)
    = map (fun ip => (fst ip, unpowered (snd ip))) l.
Proof.
  induction l as [| [i p] rest IH]; intro need; simpl.
  - reflexivity.
  - destruct (leb need md); [reflexivity |].
    destruct (ltb 0 (min (pmax p - power p) need)); simpl; rewrite IH; reflexivity.
Qed.

Lemma insert_map {A B K : Type} (key : B -> K) (klt : K -> K -> bool)
    (g : A -> B) (x : A) (l : list A) :
  map g (insert (fun a => key (g a)) klt x l) = insert key klt (g x) (map g l).
Proof.
  induction l as [| y t IH]; simpl.
  - reflexivity.
  - destruct (klt (key (g y)) (key (g x))); simpl; [rewrite IH |]; reflexivity.
Qed.

Lemma sorted_map {A B K : Type} (key : B -> K) (klt : K -> K -> bool)
    (g : A -> B) (l : list A) :
  map g (sorted (fun a => key (g a)) klt l) = sorted key klt (map g l).
Proof.
  induction l as [| x l IH]; simpl.
  - reflexivity.
  - rewrite insert_map. f_equal. exact IH.
Qed.

Lemma enumerate_from_unpowered (l : list running_plant) :
  forall s,
    map (fun ip => (fst ip, unpowered (snd ip))) (combine (seq s (List.length l)) l)
    = combine (seq s (List.length (map unpowered l))) (map unpowered l).
Proof.
  induction l as [| a l IH]; intro s; simpl.
  - reflexivity.
  - rewrite IH. reflexivity.
Qed.

Lemma in_place_unpowered (w : list (nat * running_plant)) :
  map unpowered (in_place w)
  = in_place (map (fun ip => (fst ip, unpowered (snd ip))) w).
Proof.
  unfold in_place. rewrite map_map.
  rewrite <- (sorted_map fst Nat.ltb (fun ip => (fst ip, unpowered (snd ip))) w).
  rewrite map_map. reflexivity.
Qed.

Lemma rebalance_round_keeps (load : Q) (rps : list running_plant) (md : Q) :
  map unpowered (rebalance_round load rps md) = map unpowered rps.
Proof.
  unfold rebalance_round.
  destruct (ltb 0 (total_power rps - load)); rewrite in_place_unpowered.
  - rewrite reduce_keeps. apply in_place_restore.
    unfold enumerate. rewrite <- enumerate_from_unpowered.
    apply Permutation_map, sorted_rev_perm.
  - rewrite increase_keeps. apply in_place_restore.
    unfold enumerate. rewrite <- enumerate_from_unpowered.
    apply Permutation_map, sorted_perm.
Qed.

Lemma rebalance_loop_keeps (fuel : nat) (load md : Q) :
  forall rps n,
    map unpowered (fst (rebalance_loop fuel load rps n md)) = map unpowered rps.
Proof.
  induction fuel as [| fuel IH]; intros rps n; cbn [rebalance_loop].
  - reflexivity.
  - destruct (isclose (total_power rps) load 0.5); cbn [negb]; [reflexivity |].
    destruct (ltb (Qabs (total_power rps - load)) md); [reflexivity |].
    rewrite IH. apply rebalance_round_keeps.
Qed.

(** X20.  The rebalancing changes powers and nothing else: the list that
    [optional_precision_iteration] leaves has the same plants at the same
    positions, each with its name, type, efficiency, bounds and cost. *)
Theorem rebalancing_keeps_plants (load : Q) (rps : list running_plant)
    (mi n : nat) (md : Q) :
  map unpowered (plants_after (optional_precision_iteration load rps mi n md))
  = map unpowered rps.
Proof.
  unfold optional_precision_iteration.
  pose proof (rebalance_loop_keeps (mi - n) load md rps n) as H.
  destruct (rebalance_loop (mi - n) load rps n md) as [rps' n']. exact H.
Qed.

(** ** What the reconciliation can do *)

Lemma sum_app (l1 l2 : list Q) : sum (l1 ++ l2) == sum l1 + sum l2.
Proof.
  induction l1 as [| x l1 IH]; simpl.
  - unfold sum at 2. simpl. lra.
  - rewrite !sum_cons, IH. lra.
Qed.

Lemma nudge_cases (plant : running_plant) (d : Q) (resp : list entry) :
  nudge plant d resp = (d, resp)
  \/ exists pre r post,
       resp = pre ++ r :: post
       /\ nudge plant d resp
          = (0.0, pre ++ mkEntry (e_name r) (round1 (e_power r + d)) :: post).
Proof.
  induction resp as [| r rest IH]; simpl.
  - left. reflexivity.
  - destruct (e_name r =? name plant)%string.
    + destruct (leb (pmin plant - 0.000000001) (e_power r + d)
                && leb (e_power r + d) (pmax plant + 0.000000001)
                && leb 0.0 (e_power r + d)).
      * right. exists [], r, rest. split; reflexivity.
      * left. reflexivity.
    + destruct IH as [-> | (pre & r0 & post & -> & ->)].
      * left. reflexivity.
      * right. exists (r :: pre), r0, post. split; reflexivity.
Qed.

Lemma absorb_cases (d : Q) (plants : list running_plant) (resp : list entry) :
  absorb d plants resp = resp
  \/ exists pre r post,
       resp = pre ++ r :: post
       /\ absorb d plants resp
          = pre ++ mkEntry (e_name r) (round1 (e_power r + d)) :: post.
Proof.
  induction plants as [| plant rest IH]; simpl.
  - left. reflexivity.
  - destruct (nudge_cases plant d resp) as [-> | (pre & r & post & Hsplit & ->)].
    + destruct (Qeq_bool d 0.0); [left; reflexivity | exact IH].
    + right. exists pre, r, post. split; [exact Hsplit | reflexivity].
Qed.

(** X21.  [ensure_total_equals_load], given the total of the response,
    either returns the response as it is or replaces the power of exactly
    one entry by a value rounded to one decimal, keeping its name and its
    place; after such a replacement the total of the response is within 0.1
    of the load. *)
Theorem reconciliation_effect (load : Q) (rps : list running_plant)
    (resp : list entry) :
  ensure_total_equals_load load rps resp (sum (map e_power resp)) = resp
  \/ exists pre r post,
       resp = pre ++ r :: post
       /\ ensure_total_equals_load load rps resp (sum (map e_power resp))
          = pre ++ mkEntry (e_name r)
                     (round1 (e_power r + round1 (load - sum (map e_power resp))))
                   :: post
       /\ Qabs (sum (map e_power
                       (ensure_total_equals_load load rps resp
                          (sum (map e_power resp))))
                - load) <= 0.1.
Proof.
  unfold ensure_total_equals_load.
  destruct (leb 0.1 (Qabs (round1 (load - sum (map e_power resp)))));
    [| left; reflexivity].
  destruct (absorb_cases (round1 (load - sum (map e_power resp)))
              (sorted cost price_ltb rps) resp)
    as [-> | (pre & r & post & Hsplit & ->)]; [left; reflexivity |].
  right. exists pre, r, post. split; [exact Hsplit |]. split; [reflexivity |].
  pose proof (round1_near (load - sum (map e_power resp))) as N1.
  pose proof (round1_near (e_power r + round1 (load - sum (map e_power resp)))) as N2.
  apply Qabs_Qle_condition in N1. apply Qabs_Qle_condition in N2.
  set (d := round1 (load - sum (map e_power resp))) in *.
  assert (sum (map e_power resp) == sum (map e_power pre) + (e_power r + sum (map e_power post)))
    as Hold.
  { rewrite Hsplit, map_app, sum_app. cbn [map]. rewrite sum_cons. reflexivity. }
  rewrite map_app, sum_app. cbn [map e_power]. rewrite sum_cons.
  apply Qabs_Qle_condition. split; lra.
Qed.

(** X22.  When the total handed to [ensure_total_equals_load] is less than
    0.05 away from the load, the response is returned as it is. *)
Theorem small_gap_untouched (load : Q) (rps : list running_plant)
    (resp : list entry) (rounded_total : Q)
    (Hgap : Qabs (load - rounded_total) < 0.05) :
  ensure_total_equals_load load rps resp rounded_total = resp.
Proof.
  unfold ensure_total_equals_load.
  destruct (leb 0.1 (Qabs (round1 (load - rounded_total)))) eqn:E; [| reflexivity].
  exfalso. reflect_cmp.
  pose proof (round1_near (load - rounded_total)) as N.
  apply Qabs_Qle_condition in N.
  assert (Qabs (load - rounded_total) <= 0.05) as Hg by lra.
  apply Qabs_Qle_condition in Hg.
  assert (Qabs (round1 (load - rounded_total)) <= 0.1) as Hs
      by (apply Qabs_Qle_condition; split; lra).
  assert (Qabs (round1 (load - rounded_total)) == 0.1) as Heq by lra.
  clear Hs E.
  destruct (Qlt_le_dec (load - rounded_total) 0) as [Hn | Hp].
  - rewrite (Qabs_neg (load - rounded_total)) in Hgap by lra.
    destruct (Qlt_le_dec (round1 (load - rounded_total)) 0) as [Hrn | Hrp].
    + rewrite Qabs_neg in Heq by lra. lra.
    + rewrite Qabs_pos in Heq by lra. lra.
  - rewrite (Qabs_pos (load - rounded_total)) in Hgap by lra.
    destruct (Qlt_le_dec (round1 (load - rounded_total)) 0) as [Hrn | Hrp].
    + rewrite Qabs_neg in Heq by lra. lra.
    + rewrite Qabs_pos in Heq by lra. lra.
Qed.

Lemma small_gap_untouched_witness :
  ensure_total_equals_load 35 [] [mkEntry "A" 10; mkEntry "B" 25] 35
  = [mkEntry "A" 10; mkEntry "B" 25].
Proof.
  apply small_gap_untouched. vm_compute. reflexivity.
Defined.
